(** * Decision_making.py: propositional sentences and entailment by model checking

    A shallow embedding of [src/Decision_making.py]: the [Sentence] class
    hierarchy (Symbol, Not, And, Or, Implication), its methods [evaluate],
    [formula], [symbols], [__eq__], [__hash__], the class methods [validate]
    and [parenthesize], and the function [model_check] with its inner
    [check_all].

    Modelling choices.
    - A Python [str] is the list of its Unicode code points ([list N]).
    - A raised exception is the [Raise] case of [result]; exceptions
      propagate through [let*].
    - A Python [set] of names is a [gset]; a [dict] from names to truth
      values is a [gmap].  [set.pop()] removes an arbitrary element: the
      choice is a parameter [pick] of the model, and the theorems hold for
      every choice.
    - An instance of the base class [Sentence] itself is the constructor
      [Base]; it carries the object's identity, which is all the default
      [__eq__] and [__hash__] of such an object look at.
    - [str.isalpha] is computed for ASCII; which code points beyond ASCII
      are alphabetic, and the builtin [hash], are parameters. *)

From Stdlib Require Import ZArith NArith List Ascii String Lia.
From stdpp Require Import base gmap sets list.
From Equations Require Import Equations.
Import ListNotations.

Set Warnings "-register-all,-clear-no-such-hyp".
Set Default Proof Using "Type".

(** ** Python strings *)

Abbreviation str := (list N).

(** An ASCII literal as a Python string. *)
Definition pystr (s : string) : str := map N_of_ascii (list_ascii_of_string s).

Definition lparen : N := 40.
Definition rparen : N := 41.

(** [sep.join(parts)] *)
Fixpoint join (sep : str) (parts : list str) : str :=
  match parts with
  | [] => []
  | [p] => p
  | p :: rest => p ++ sep ++ join sep rest
  end.

(** The connective tokens of the source: "¬" (U+00AC), " ∧ " (U+2227 between
    single spaces), " ∨  " (U+2228 after one space and before two) and
    " => ". *)
Definition not_token : str := [172%N].
Definition and_token : str := [32; 8743; 32]%N.
Definition or_token : str := [32; 8744; 32; 32]%N.
Definition implies_token : str := pystr " => ".

(** ** Exceptions and results *)

Inductive exn :=
| Exception (msg : str)
| TypeError (msg : str)
| KeyError (msg : str).

Inductive result (A : Type) :=
| Ok (a : A)
| Raise (e : exn).
Arguments Ok {A} a.
Arguments Raise {A} e.

Definition bind {A B} (r : result A) (k : A -> result B) : result B :=
  match r with
  | Ok a => k a
  | Raise e => Raise e
  end.

Notation "'let*' x ':=' e 'in' k" := (bind e (fun x => k))
  (at level 10, x name, e at level 200, k at level 200).

Definition raises {A} (r : result A) : Prop := exists e, r = Raise e.
Definition returns {A} (r : result A) : Prop := exists a, r = Ok a.

(** ** Sentences *)

Inductive Sentence :=
| Base (id : N)
| Symbol (name : str)
| Not (operand : Sentence)
| And (conjuncts : list Sentence)
| Or (disjuncts : list Sentence)
| Implication (antecedent consequent : Sentence).

(** Sentences built from the five concrete variants only. *)
Fixpoint concrete (s : Sentence) : bool :=
  match s with
  | Base _ => false
  | Symbol _ => true
  | Not o => concrete o
  | And cs => forallb concrete cs
  | Or ds => forallb concrete ds
  | Implication a c => concrete a && concrete c
  end.

(** *** evaluate *)

(** [all(f(x) for x in l)]: stops at the first false value. *)
Definition all_of {A} (f : A -> result bool) : list A -> result bool :=
  fix go l :=
    match l with
    | [] => Ok true
    | x :: r => let* b := f x in if b : bool then go r else Ok false
    end.

(** [any(f(x) for x in l)]: stops at the first true value. *)
Definition any_of {A} (f : A -> result bool) : list A -> result bool :=
  fix go l :=
    match l with
    | [] => Ok false
    | x :: r => let* b := f x in if b : bool then Ok true else go r
    end.

Fixpoint evaluate (s : Sentence) (model : gmap str bool) : result bool :=
  match s with
  | Base _ => Raise (Exception (pystr "nothing to evaluate"))
  | Symbol name =>
      match model !! name with
      | Some b => Ok b
      | None => Raise (Exception (pystr "variable " ++ name ++ pystr " not in model"))
      end
  | Not operand => let* b := evaluate operand model in Ok (negb b)
  | And conjuncts => all_of (fun conjunct => evaluate conjunct model) conjuncts
  | Or disjuncts => any_of (fun disjunct => evaluate disjunct model) disjuncts
  | Implication antecedent consequent =>
      let* a := evaluate antecedent model in
      if negb a then Ok true else evaluate consequent model
  end.

(** *** symbols *)

(** A list comprehension [[f(x) for x in l]]: the first failure is raised. *)
Definition collect {A B} (f : A -> result B) : list A -> result (list B) :=
  fix go l :=
    match l with
    | [] => Ok []
    | x :: r => let* y := f x in let* ys := go r in Ok (y :: ys)
    end.

(** [set.union] applied to an unpacked list of sets: the unbound method
    needs a first argument. *)
Definition set_union (sets : list (gset str)) : result (gset str) :=
  match sets with
  | [] => Raise (TypeError (pystr "unbound method set.union() needs an argument"))
  | s :: others => Ok (fold_left (fun acc o => acc ∪ o) others s)
  end.

Fixpoint symbols (s : Sentence) : result (gset str) :=
  match s with
  | Base _ => Ok ∅
  | Symbol name => Ok {[ name ]}
  | Not operand => symbols operand
  | And conjuncts => let* sets := collect symbols conjuncts in set_union sets
  | Or disjuncts => let* sets := collect symbols disjuncts in set_union sets
  | Implication antecedent consequent =>
      let* sa := symbols antecedent in
      let* sc := symbols consequent in
      set_union [sa; sc]
  end.

(** *** formula and parenthesize *)

(** The loop of the inner function [balanced], started at [count]. *)
Fixpoint balanced_from (count : Z) (s : str) : bool :=
  match s with
  | [] => (count =? 0)%Z
  | c :: rest =>
      if (c =? lparen)%N then balanced_from (count + 1) rest
      else if (c =? rparen)%N then
        if (count <=? 0)%Z then false else balanced_from (count - 1) rest
      else balanced_from count rest
  end.

Definition balanced (s : str) : bool := balanced_from 0 s.

(** [s[1:-1]] *)
Definition interior (s : str) : str := removelast (tl s).

(** [s[0] == "(" and s[-1] == ")" and balanced(s[1:-1])], for non-empty [s]. *)
Definition outer_parenthesized (s : str) : bool :=
  match s with
  | [] => false
  | c :: _ => (c =? lparen)%N && (List.last s 0%N =? rparen)%N && balanced (interior s)
  end.

Definition ascii_letter (c : N) : bool :=
  ((65 <=? c) && (c <=? 90) || (97 <=? c) && (c <=? 122))%N.

Section Rendering.

(** Which code points beyond ASCII are alphabetic is a table of the Unicode
    database; it is a parameter here. *)
Variable unicode_alpha : N -> bool.

Definition char_isalpha (c : N) : bool :=
  if (c <? 128)%N then ascii_letter c else unicode_alpha c.

(** [s.isalpha()]: at least one character, all of them alphabetic. *)
Definition isalpha (s : str) : bool :=
  match s with
  | [] => false
  | _ => forallb char_isalpha s
  end.

Definition parenthesize (s : str) : str :=
  if (length s =? 0)%nat || isalpha s || outer_parenthesized s
  then s
  else [lparen] ++ s ++ [rparen].

Fixpoint formula (s : Sentence) : str :=
  match s with
  | Base _ => []
  | Symbol name => name
  | Not operand => not_token ++ parenthesize (formula operand)
  | And conjuncts =>
      match conjuncts with
      | [conjunct] => formula conjunct
      | _ => join and_token (map (fun conjunct => parenthesize (formula conjunct)) conjuncts)
      end
  | Or disjuncts =>
      match disjuncts with
      | [disjunct] => formula disjunct
      | _ => join or_token (map (fun disjunct => parenthesize (formula disjunct)) disjuncts)
      end
  | Implication antecedent consequent =>
      parenthesize (formula antecedent) ++ implies_token ++ parenthesize (formula consequent)
  end.

End Rendering.

(** *** __eq__ and __hash__ *)

(** [l == l'] on lists: same length and equal elements, position by position. *)
Definition list_eq {A} (eq : A -> A -> bool) : list A -> list A -> bool :=
  fix go l l' :=
    match l, l' with
    | [], [] => true
    | x :: r, y :: r' => eq x y && go r r'
    | _, _ => false
    end.

Fixpoint Sentence_eq (self other : Sentence) : bool :=
  match self with
  | Base id => match other with Base id' => (id =? id')%N | _ => false end
  | Symbol name =>
      match other with Symbol name' => bool_decide (name = name') | _ => false end
  | Not operand =>
      match other with Not operand' => Sentence_eq operand operand' | _ => false end
  | And conjuncts =>
      match other with And conjuncts' => list_eq Sentence_eq conjuncts conjuncts' | _ => false end
  | Or disjuncts =>
      match other with Or disjuncts' => list_eq Sentence_eq disjuncts disjuncts' | _ => false end
  | Implication antecedent consequent =>
      match other with
      | Implication antecedent' consequent' =>
          Sentence_eq antecedent antecedent' && Sentence_eq consequent consequent'
      | _ => false
      end
  end.

(** The values the source passes to the builtin [hash]. *)
Inductive hashable :=
| HStr (s : str)
| HInt (z : Z)
| HTuple (items : list hashable)
| HObject (id : N).

Section Hashing.

(** The builtin [hash]: some function of the value hashed. *)
Variable hash : hashable -> Z.

Fixpoint Sentence_hash (s : Sentence) : Z :=
  match s with
  | Base id => hash (HObject id)
  | Symbol name => hash (HTuple [HStr (pystr "symbol"); HStr name])
  | Not operand => hash (HTuple [HStr (pystr "not"); HInt (Sentence_hash operand)])
  | And conjuncts =>
      hash (HTuple [HStr (pystr "and");
                    HTuple (map (fun conjunct => HInt (Sentence_hash conjunct)) conjuncts)])
  | Or disjuncts =>
      hash (HTuple [HStr (pystr "or");
                    HTuple (map (fun disjunct => HInt (Sentence_hash disjunct)) disjuncts)])
  | Implication antecedent consequent =>
      hash (HTuple [HStr (pystr "implies");
                    HInt (Sentence_hash antecedent); HInt (Sentence_hash consequent)])
  end.

End Hashing.

(** *** Construction *)

(** The objects a caller may pass where a sentence is expected. *)
Inductive pyobj :=
| PySentence (s : Sentence)
| PyNone
| PyBool (b : bool)
| PyInt (z : Z)
| PyStr (s : str)
| PyList (items : list pyobj).

Definition isinstance_Sentence (o : pyobj) : bool :=
  match o with
  | PySentence _ => true
  | _ => false
  end.

(** [Sentence.validate]: returns the operand, now known to be a sentence. *)
Definition validate (sentence : pyobj) : result Sentence :=
  match sentence with
  | PySentence s => Ok s
  | _ => Raise (TypeError (pystr "must be a logical sentence"))
  end.

Definition Not_init (operand : pyobj) : result Sentence :=
  let* o := validate operand in Ok (Not o).

Definition And_init (conjuncts : list pyobj) : result Sentence :=
  let* cs := collect validate conjuncts in Ok (And cs).

Definition Or_init (disjuncts : list pyobj) : result Sentence :=
  let* ds := collect validate disjuncts in Ok (Or ds).

Definition Implication_init (antecedent consequent : pyobj) : result Sentence :=
  let* a := validate antecedent in
  let* c := validate consequent in
  Ok (Implication a c).

(** *** Method calls *)

Inductive method :=
| call_evaluate (model : gmap str bool)
| call_formula
| call_symbols.

Inductive value :=
| VBool (b : bool)
| VStr (s : str)
| VSet (s : gset str).

(** ** model_check *)

Definition inspect {A} (a : A) : {b | a = b} := exist _ a eq_refl.

Section ModelCheck.

(** The element [set.pop()] takes from a set, as an index into its elements. *)
Variable pick : gset str -> nat.

(** [remaining = symbols.copy(); p = remaining.pop()] *)
Definition pop (syms : gset str) : option (str * gset str) :=
  let l := elements syms in
  match l !! (pick syms mod length l)%nat with
  | Some p => Some (p, syms ∖ {[ p ]})
  | None => None
  end.

Equations? check_all (knowledge query : Sentence) (syms : gset str)
    (model : gmap str bool) : result bool by wf (size syms) lt :=
check_all knowledge query syms model with decide (syms = ∅) := {
  | left _ =>
      let* k := evaluate knowledge model in
      if k : bool then evaluate query model else Ok true
  | right _ with inspect (pop syms) := {
    | exist _ None _ => Raise (KeyError (pystr "pop from an empty set"))
    | exist _ (Some (p, remaining)) Hpop =>
        let* t := check_all knowledge query remaining (<[p := true]> model) in
        if t : bool
        then check_all knowledge query remaining (<[p := false]> model)
        else Ok false
  } }.
Proof.
  all: unfold pop in Hpop.
  all: destruct (elements syms !! _) as [q|] eqn:E; [|done].
  all: injection Hpop as <- <-.
  all: apply subset_size, subset_difference_elem_of, elem_of_elements.
  all: by eapply list_elem_of_lookup_2.
Qed.

Definition model_check (knowledge query : Sentence) : result bool :=
  let* sk := symbols knowledge in
  let* sq := symbols query in
  let* syms := set_union [sk; sq] in
  check_all knowledge query syms ∅.

End ModelCheck.

(** *** The commuting rules of the source *)

Definition Rain := Symbol (pystr "Rain").
Definition HeavyTraffic := Symbol (pystr "HeavyTraffic").
Definition EarlyMeeting := Symbol (pystr "EarlyMeeting").
Definition Strike := Symbol (pystr "Strike").
Definition Appointment := Symbol (pystr "Appointment").
Definition RoadConstruction := Symbol (pystr "RoadConstruction").
Definition WFH := Symbol (pystr "WorkFromHome").
Definition Drive := Symbol (pystr "Drive").
Definition PublicTransport := Symbol (pystr "PublicTransport").

Definition rule1 := Implication (Or [Rain; EarlyMeeting]) WFH.
Definition rule2 := Implication (And [Appointment; Not EarlyMeeting]) Drive.
Definition rule3 := Implication (And [Not Strike; Not Rain]) PublicTransport.
Definition knowledge_base := And [rule1; rule2; rule3].

(** *** The queries, the scenario check and the first scenario of the source *)

Definition query_wfh := WFH.
Definition query_drive := Drive.
Definition query_public_transport := PublicTransport.

(** [perform_model_check(model)]: the three answers it prints, in the order
    printed (work from home, drive, public transport).  The line that prints
    the model itself is not modelled; it is the only use the function makes
    of its argument. *)
Definition perform_model_check (pick : gset str -> nat) (model : gmap str bool) :
    result (bool * bool * bool) :=
  let* wfh := model_check pick knowledge_base query_wfh in
  let* drive := model_check pick knowledge_base query_drive in
  let* public_transport := model_check pick knowledge_base query_public_transport in
  Ok (wfh, drive, public_transport).

Definition scenario1 : gmap str bool :=
  list_to_map
    [(pystr "Rain", true); (pystr "HeavyTraffic", true); (pystr "EarlyMeeting", false);
     (pystr "Strike", false); (pystr "Appointment", false)].

(** ** Auxiliary definitions of the statements *)

(** What [check_all] computes at a complete assignment. *)
Definition leaf (knowledge query : Sentence) (model : gmap str bool) : result bool :=
  let* k := evaluate knowledge model in
  if k : bool then evaluate query model else Ok true.

(** A call [s.evaluate(model)], [s.formula()] or [s.symbols()]. *)
Definition call (unicode_alpha : N -> bool) (s : Sentence) (m : method) : result value :=
  match m with
  | call_evaluate model => let* b := evaluate s model in Ok (VBool b)
  | call_formula => Ok (VStr (formula unicode_alpha s))
  | call_symbols => let* names := symbols s in Ok (VSet names)
  end.

(** Whether a sentence is a single symbol. *)
Definition is_Symbol (s : Sentence) : bool :=
  match s with
  | Symbol _ => true
  | _ => false
  end.

(** The nesting depth a string ends at: opening minus closing parentheses. *)
Definition paren_step (c : N) : Z :=
  if (c =? lparen)%N then 1 else if (c =? rparen)%N then -1 else 0.

Fixpoint depth (s : str) : Z :=
  match s with
  | [] => 0
  | c :: rest => paren_step c + depth rest
  end.

(** No prefix closes more than it opens, and the whole string closes all
    it opens. *)
Definition well_nested (s : str) : Prop :=
  (forall k, (0 <= depth (take k s))%Z) /\ depth s = 0%Z.

(** A binding of a scenario as a sentence: the symbol, or its negation. *)
Definition literal (binding : str * bool) : Sentence :=
  if binding.2 then Symbol binding.1 else Not (Symbol binding.1).

(** The three rules together with the facts of a scenario. *)
Definition knowledge_in (scenario : gmap str bool) : Sentence :=
  And (knowledge_base :: map literal (map_to_list scenario)).

(** A checkable certificate that [a] is a countermodel: the sentences are
    concrete, their symbols are computed, [a] binds exactly those, and [a]
    makes the knowledge true and the query false. *)
Definition refutes (knowledge query : Sentence) (a : gmap str bool) : bool :=
  concrete knowledge && concrete query &&
  match symbols knowledge, symbols query with
  | Ok sk, Ok sq => bool_decide (dom a = sk ∪ sq)
  | _, _ => false
  end &&
  match evaluate knowledge a, evaluate query a with
  | Ok true, Ok false => true
  | _, _ => false
  end.

(** A model of the three rules in which only one symbol holds. *)
Definition only_true (name : str) : gmap str bool :=
  <[name := true]>
    (list_to_map
       (map (fun n => (pystr n, false))
          ["Rain"; "EarlyMeeting"; "Strike"; "Appointment";
           "WorkFromHome"; "Drive"; "PublicTransport"]%string)).

(** The names of the [Symbol] leaves of a sentence. *)
Fixpoint names (s : Sentence) : gset str :=
  match s with
  | Base _ => ∅
  | Symbol name => {[ name ]}
  | Not o => names o
  | And cs => ⋃ (map names cs)
  | Or ds => ⋃ (map names ds)
  | Implication a c => names a ∪ names c
  end.

(** Every [And] and [Or] of the sentence has at least one operand. *)
Fixpoint operands_nonempty (s : Sentence) : bool :=
  match s with
  | Base _ => true
  | Symbol _ => true
  | Not o => operands_nonempty o
  | And cs => negb (bool_decide (cs = [])) && forallb operands_nonempty cs
  | Or ds => negb (bool_decide (ds = [])) && forallb operands_nonempty ds
  | Implication a c => operands_nonempty a && operands_nonempty c
  end.

(** The exception of [Symbol.evaluate] for an unbound name. *)
Definition unbound (name : str) : exn :=
  Exception (pystr "variable " ++ name ++ pystr " not in model").

(** The exception of [set.union] called without an argument. *)
Definition needs_argument : exn :=
  TypeError (pystr "unbound method set.union() needs an argument").

(** ** Induction over sentences, through the lists of [And] and [Or] *)

Section SentenceInduction.

Variable P : Sentence -> Prop.
Hypothesis HBase : forall id, P (Base id).
Hypothesis HSymbol : forall name, P (Symbol name).
Hypothesis HNot : forall o, P o -> P (Not o).
Hypothesis HAnd : forall cs, Forall P cs -> P (And cs).
Hypothesis HOr : forall ds, Forall P ds -> P (Or ds).
Hypothesis HImplication : forall a c, P a -> P c -> P (Implication a c).

Fixpoint Sentence_nested_ind (s : Sentence) : P s :=
  let all :=
    fix all (l : list Sentence) : Forall P l :=
      match l with
      | [] => List.Forall_nil P
      | x :: r => List.Forall_cons P x r (Sentence_nested_ind x) (all r)
      end in
  match s with
  | Base id => HBase id
  | Symbol name => HSymbol name
  | Not o => HNot o (Sentence_nested_ind o)
  | And cs => HAnd cs (all cs)
  | Or ds => HOr ds (all ds)
  | Implication a c => HImplication a c (Sentence_nested_ind a) (Sentence_nested_ind c)
  end.

End SentenceInduction.

(** * Properties *)

(** ** Taking an element from a set *)

Section Pop.

Variable pick : gset str -> nat.

Lemma pop_Some (syms : gset str) (p : str) (remaining : gset str) :
  pop pick syms = Some (p, remaining) -> p ∈ syms /\ remaining = syms ∖ {[ p ]}.
Proof.
  unfold pop. destruct (elements syms !! _) as [q|] eqn:E; [|done].
  intros [= <- <-]. split; [|done].
  apply elem_of_elements. eapply list_elem_of_lookup_2; eauto.
Qed.

Lemma pop_None (syms : gset str) : pop pick syms = None -> syms = ∅.
Proof.
  unfold pop. destruct (elements syms) as [|x l] eqn:E.
  - intros _. by apply leibniz_equiv, elements_empty_inv.
  - destruct (_ !! _) eqn:E'; [done|]. intros _.
    apply lookup_ge_None in E'.
    pose proof (Nat.mod_upper_bound (pick syms) (length (x :: l))) as Hlt.
    simpl in *. lia.
Qed.

End Pop.

(** ** The error monad *)

Lemma bind_Ok {A B} (r : result A) (k : A -> result B) b :
  bind r k = Ok b <-> exists a, r = Ok a /\ k a = Ok b.
Proof.
  destruct r as [a|e]; simpl.
  - split; [intros H; by exists a | intros (a' & Ha & H); congruence].
  - split; [done | intros (a' & Ha & _); congruence].
Qed.

Lemma bind_Raise {A B} (r : result A) (k : A -> result B) e :
  bind r k = Raise e <-> r = Raise e \/ exists a, r = Ok a /\ k a = Raise e.
Proof.
  destruct r as [a|e']; simpl.
  - split; [intros H; right; by exists a | intros [?|(a' & Ha & H)]; congruence].
  - split; [intros [= ->]; by left | intros [?|(a' & Ha & _)]; congruence].
Qed.

Lemma returns_Ok {A} (a : A) : returns (Ok a).
Proof. by exists a. Qed.

Lemma raises_not_returns {A} (r : result A) : raises r <-> ~ returns r.
Proof.
  destruct r as [a|e]; split.
  - by intros [e ?].
  - intros H. destruct H. by exists a.
  - by intros _ [a ?].
  - intros _. by exists e.
Qed.

Lemma collect_Ok {A B} (f : A -> result B) l ys :
  collect f l = Ok ys <-> Forall2 (fun x y => f x = Ok y) l ys.
Proof.
  revert ys. induction l as [|x l IH]; intros ys; simpl.
  - split; [intros [= <-]; constructor | by inversion 1].
  - rewrite bind_Ok. split.
    + intros (y & Hy & H). apply bind_Ok in H as (ys' & Hys & [= <-]).
      constructor; [done | by apply IH].
    + inversion 1 as [|? y ? ys' Hy Hys]; subst. exists y. split; [done|].
      apply bind_Ok. exists ys'. split; [by apply IH | done].
Qed.

Lemma collect_Raise {A B} (f : A -> result B) l e :
  collect f l = Raise e -> Exists (fun x => f x = Raise e) l.
Proof.
  induction l as [|x l IH]; simpl; [done|].
  intros [H|(y & Hy & H)]%bind_Raise; [by left|].
  apply bind_Raise in H as [H|(ys & _ & ?)]; [right; by apply IH | done].
Qed.

Lemma fold_left_union (others : list (gset str)) (s : gset str) :
  fold_left (fun acc o => acc ∪ o) others s = s ∪ ⋃ others.
Proof.
  revert s. induction others as [|o others IH]; intros s; simpl.
  - by rewrite union_empty_r_L.
  - by rewrite IH, (assoc_L (∪)).
Qed.

Lemma set_union_Ok sets S :
  set_union sets = Ok S <-> sets <> [] /\ S = ⋃ sets.
Proof.
  destruct sets as [|s others]; simpl.
  - split; [done | by intros [? _]].
  - rewrite fold_left_union. split; [by intros [= <-] | by intros [_ ->]].
Qed.

(** ** The symbols of a compound cover those of its operands *)

Lemma symbols_operands l sets S :
  collect symbols l = Ok sets -> set_union sets = Ok S ->
  Forall (fun c => exists Sc, symbols c = Ok Sc /\ Sc ⊆ S) l.
Proof.
  intros Hc%collect_Ok [_ ->]%set_union_Ok.
  induction Hc as [|c Sc l sets Hhead Htail IH]; constructor.
  - exists Sc. split; [done|]. simpl. apply union_subseteq_l.
  - eapply Forall_impl; [exact IH|].
    intros c' (Sc' & ? & ?). exists Sc'. split; [done|].
    simpl. by apply union_subseteq_r'.
Qed.

(** ** [all] and [any] over results *)

Lemma all_of_ext {A} (f g : A -> result bool) l :
  Forall (fun x => f x = g x) l -> all_of f l = all_of g l.
Proof.
  induction 1 as [|x l Hx _ IH]; simpl; [done|]. by rewrite Hx, IH.
Qed.

Lemma any_of_ext {A} (f g : A -> result bool) l :
  Forall (fun x => f x = g x) l -> any_of f l = any_of g l.
Proof.
  induction 1 as [|x l Hx _ IH]; simpl; [done|]. by rewrite Hx, IH.
Qed.

Lemma all_of_returns {A} (f : A -> result bool) l :
  Forall (fun x => returns (f x)) l -> returns (all_of f l).
Proof.
  induction 1 as [|x l [b Hx] _ IH]; simpl; [apply returns_Ok|].
  rewrite Hx. simpl. destruct b; [done | apply returns_Ok].
Qed.

Lemma any_of_returns {A} (f : A -> result bool) l :
  Forall (fun x => returns (f x)) l -> returns (any_of f l).
Proof.
  induction 1 as [|x l [b Hx] _ IH]; simpl; [apply returns_Ok|].
  rewrite Hx. simpl. destruct b; [apply returns_Ok | done].
Qed.

(** [all] returns true exactly when every element does. *)
Lemma all_of_true {A} (f : A -> result bool) l :
  all_of f l = Ok true <-> Forall (fun x => f x = Ok true) l.
Proof.
  induction l as [|x l IH]; simpl.
  - split; [constructor | done].
  - rewrite bind_Ok. split.
    + intros ([] & Hx & H); [|done]. constructor; [done | by apply IH].
    + inversion 1 as [|?? Hx Hl]; subst. exists true. split; [done | by apply IH].
Qed.

(** ** Evaluation looks only at the symbols of the sentence *)

Lemma evaluate_agree s : forall S (m1 m2 : gmap str bool),
  symbols s = Ok S -> (forall n, n ∈ S -> m1 !! n = m2 !! n) ->
  evaluate s m1 = evaluate s m2.
Proof.
  induction s as [id|name|o IH|cs IH|ds IH|a c IHa IHc] using Sentence_nested_ind;
    intros S m1 m2 Hs Hag; simpl in *.
  - done.
  - injection Hs as <-. rewrite (Hag name); [done | by apply elem_of_singleton].
  - by rewrite (IH S m1 m2).
  - apply bind_Ok in Hs as (sets & Hc & Hu).
    apply all_of_ext. pose proof (symbols_operands _ _ _ Hc Hu) as Hsub.
    rewrite Forall_forall in IH, Hsub. apply Forall_forall. intros c Hin.
    destruct (Hsub c Hin) as (Sc & HSc & Hsubset).
    apply (IH c Hin Sc); [done|]. intros n Hn. apply Hag. by apply Hsubset.
  - apply bind_Ok in Hs as (sets & Hc & Hu).
    apply any_of_ext. pose proof (symbols_operands _ _ _ Hc Hu) as Hsub.
    rewrite Forall_forall in IH, Hsub. apply Forall_forall. intros d Hin.
    destruct (Hsub d Hin) as (Sd & HSd & Hsubset).
    apply (IH d Hin Sd); [done|]. intros n Hn. apply Hag. by apply Hsubset.
  - apply bind_Ok in Hs as (sa & Ha & Hs). apply bind_Ok in Hs as (sc & Hc & [= <-]).
    rewrite (IHa sa m1 m2), (IHc sc m1 m2); [done|done| |done|].
    + intros n Hn. apply Hag. by apply elem_of_union_r.
    + intros n Hn. apply Hag. by apply elem_of_union_l.
Qed.

(** ** Evaluation of a concrete sentence under a model that binds its symbols *)

Lemma evaluate_returns s : forall S (m : gmap str bool),
  concrete s = true -> symbols s = Ok S -> S ⊆ dom m -> returns (evaluate s m).
Proof.
  induction s as [id|name|o IH|cs IH|ds IH|a c IHa IHc] using Sentence_nested_ind;
    intros S m Hcon Hs Hdom; simpl in *.
  - done.
  - injection Hs as <-.
    assert (name ∈ dom m) as [b Hb]%elem_of_dom by (by apply Hdom, elem_of_singleton).
    rewrite Hb. apply returns_Ok.
  - destruct (IH S m Hcon Hs Hdom) as [b ->]. apply returns_Ok.
  - apply bind_Ok in Hs as (sets & Hc & Hu).
    apply all_of_returns. pose proof (symbols_operands _ _ _ Hc Hu) as Hsub.
    rewrite forallb_forall in Hcon.
    rewrite Forall_forall in IH, Hsub. apply Forall_forall. intros c Hin.
    destruct (Hsub c Hin) as (Sc & HSc & Hsubset).
    apply (IH c Hin Sc); [by apply Hcon, list_elem_of_In | done | by etrans].
  - apply bind_Ok in Hs as (sets & Hc & Hu).
    apply any_of_returns. pose proof (symbols_operands _ _ _ Hc Hu) as Hsub.
    rewrite forallb_forall in Hcon.
    rewrite Forall_forall in IH, Hsub. apply Forall_forall. intros d Hin.
    destruct (Hsub d Hin) as (Sd & HSd & Hsubset).
    apply (IH d Hin Sd); [by apply Hcon, list_elem_of_In | done | by etrans].
  - apply andb_true_iff in Hcon as [Hcona Hconc].
    apply bind_Ok in Hs as (sa & Ha & Hs). apply bind_Ok in Hs as (sc & Hc & [= <-]).
    destruct (IHa sa m Hcona Ha) as [x ->]; [set_solver|]. simpl.
    destruct x; simpl; [|apply returns_Ok].
    apply (IHc sc m Hconc Hc). set_solver.
Qed.

(** ** [check_all] visits every complete assignment *)

(** Assignments over [syms] are those over [syms] without [p], extended at [p]. *)
Lemma union_insert_fresh (a : gmap str bool) (p : str) (b : bool) (model : gmap str bool) :
  a !! p = None -> a ∪ <[p := b]> model = <[p := b]> a ∪ model.
Proof.
  intros Hp. by rewrite <- insert_union_r, insert_union_l.
Qed.

Lemma assignments_split (P : gmap str bool -> Prop) (syms : gset str) (p : str)
    (model : gmap str bool) :
  p ∈ syms ->
  (forall a : gmap str bool, dom a = syms -> P (a ∪ model)) <->
  (forall (b : bool) (a : gmap str bool),
      dom a = syms ∖ {[ p ]} -> P (a ∪ <[p := b]> model)).
Proof.
  intros Hp. split.
  - intros H b a Ha.
    assert (a !! p = None) as Hfresh.
    { apply not_elem_of_dom. rewrite Ha. set_solver. }
    rewrite union_insert_fresh by done. apply H.
    rewrite dom_insert_L, Ha. apply set_eq. intros x.
    rewrite elem_of_union, elem_of_difference, elem_of_singleton.
    destruct (decide (x = p)) as [->|]; naive_solver.
  - intros H a Ha.
    assert (is_Some (a !! p)) as [b Hb] by (apply elem_of_dom; by rewrite Ha).
    specialize (H b (delete p a)).
    rewrite union_insert_fresh in H by apply lookup_delete_eq.
    rewrite insert_delete_id in H by done. apply H.
    by rewrite dom_delete_L, Ha.
Qed.

Section CheckAll.

Variable pick : gset str -> nat.
Variables knowledge query : Sentence.

Lemma check_all_true syms model :
  check_all pick knowledge query syms model = Ok true <->
  forall a : gmap str bool, dom a = syms -> leaf knowledge query (a ∪ model) = Ok true.
Proof.
  funelim (check_all pick knowledge query syms model).
  - subst syms. split.
    + intros Hl a ->%dom_empty_inv_L. by rewrite (left_id_L ∅ (∪)).
    + intros Hl. specialize (Hl ∅ (dom_empty_L)). by rewrite (left_id_L ∅ (∪)) in Hl.
  - clear H1 Heq Heqcall. apply pop_Some in Hpop as [Hp ->].
    specialize (H0 true).
    pose proof (assignments_split
      (fun m => leaf knowledge query m = Ok true) syms p model Hp) as Hsplit.
    cbv beta in Hsplit. rewrite Hsplit, bind_Ok. clear Hsplit. split.
    + intros (t & Ht & Hf). destruct t; [|done].
      intros [] a Ha; [by apply H | by apply H0].
    + intros Hall. exists true. split.
      * apply H. intros a Ha. by apply Hall.
      * apply H0. intros a Ha. by apply Hall.
  - exfalso. by apply n, (pop_None pick).
Qed.

(** When no complete assignment raises, [check_all] returns. *)
Lemma check_all_returns syms model :
  (forall a : gmap str bool, dom a = syms -> returns (leaf knowledge query (a ∪ model))) ->
  returns (check_all pick knowledge query syms model).
Proof.
  funelim (check_all pick knowledge query syms model).
  - subst syms. intros Hl. specialize (Hl ∅ (dom_empty_L)).
    by rewrite (left_id_L ∅ (∪)) in Hl.
  - clear H1 Heq Heqcall. apply pop_Some in Hpop as [Hp ->].
    pose proof (assignments_split
      (fun m => returns (leaf knowledge query m)) syms p model Hp) as Hsplit.
    cbv beta in Hsplit. rewrite Hsplit. clear Hsplit. intros Hall.
    destruct H as [t ->]; [intros a Ha; by apply Hall|]. simpl.
    destruct t; [|apply returns_Ok].
    apply (H0 true). intros a Ha. by apply Hall.
  - exfalso. by apply n, (pop_None pick).
Qed.

End CheckAll.

(** On concrete sentences a leaf never raises. *)
Lemma leaf_concrete (knowledge query : Sentence) (sk sq : gset str) (a : gmap str bool) :
  concrete knowledge = true -> concrete query = true ->
  symbols knowledge = Ok sk -> symbols query = Ok sq -> dom a = sk ∪ sq ->
  returns (leaf knowledge query a) /\
  (leaf knowledge query a = Ok true <->
   (evaluate knowledge a = Ok true -> evaluate query a = Ok true)).
Proof.
  intros Hck Hcq Hk Hq Ha. unfold leaf.
  destruct (evaluate_returns knowledge sk a Hck Hk) as [k ->]; [set_solver|].
  destruct (evaluate_returns query sq a Hcq Hq) as [q ->]; [set_solver|].
  simpl. destruct k; split; try apply returns_Ok; naive_solver.
Qed.

(** ** [model_check] *)

Section ModelCheckFacts.

Variable pick : gset str -> nat.

Lemma model_check_unfold (knowledge query : Sentence) (sk sq : gset str) :
  symbols knowledge = Ok sk -> symbols query = Ok sq ->
  model_check pick knowledge query = check_all pick knowledge query (sk ∪ sq) ∅.
Proof. intros Hk Hq. unfold model_check. by rewrite Hk, Hq. Qed.

(** [model_check] returns true exactly when both symbol sets are computed
    and no complete assignment over their union makes the knowledge true
    without making the query true (nor makes an evaluation raise). *)
Lemma model_check_true (knowledge query : Sentence) :
  model_check pick knowledge query = Ok true <->
  exists sk sq : gset str, symbols knowledge = Ok sk /\ symbols query = Ok sq /\
    forall a : gmap str bool, dom a = sk ∪ sq -> leaf knowledge query a = Ok true.
Proof.
  split.
  - unfold model_check. intros (sk & Hk & H)%bind_Ok.
    apply bind_Ok in H as (sq & Hq & H). simpl in H.
    exists sk, sq. split; [done|]. split; [done|].
    intros a Ha. apply check_all_true with (a := a) in H; [|done].
    by rewrite (right_id_L ∅ (∪)) in H.
  - intros (sk & sq & Hk & Hq & H).
    rewrite (model_check_unfold _ _ sk sq) by done.
    apply check_all_true. intros a Ha. rewrite (right_id_L ∅ (∪)). by apply H.
Qed.

(** Correctness of [model_check] where [symbols] returns: the result is
    true exactly when the knowledge entails the query. *)
Lemma model_check_entails (knowledge query : Sentence) (sk sq : gset str) :
  concrete knowledge = true -> concrete query = true ->
  symbols knowledge = Ok sk -> symbols query = Ok sq ->
  (model_check pick knowledge query = Ok true <->
   forall a : gmap str bool, dom a = sk ∪ sq ->
     evaluate knowledge a = Ok true -> evaluate query a = Ok true).
Proof.
  intros Hck Hcq Hk Hq. rewrite model_check_true. split.
  - intros (sk' & sq' & Hk' & Hq' & H) a Ha.
    assert (sk' = sk) as -> by congruence. assert (sq' = sq) as -> by congruence.
    by apply (leaf_concrete knowledge query sk sq a), H.
  - intros H. exists sk, sq. split; [done|]. split; [done|]. intros a Ha.
    by apply (leaf_concrete knowledge query sk sq a), H.
Qed.

Lemma model_check_returns (knowledge query : Sentence) (sk sq : gset str) :
  concrete knowledge = true -> concrete query = true ->
  symbols knowledge = Ok sk -> symbols query = Ok sq ->
  returns (model_check pick knowledge query).
Proof.
  intros Hck Hcq Hk Hq. rewrite (model_check_unfold _ _ sk sq) by done.
  apply check_all_returns. intros a Ha. rewrite (right_id_L ∅ (∪)).
  by apply (leaf_concrete knowledge query sk sq a).
Qed.

(** A countermodel makes [model_check] return false, whatever the order in
    which the symbols are taken. *)
Lemma model_check_refuted (knowledge query : Sentence) (sk sq : gset str) (a : gmap str bool) :
  concrete knowledge = true -> concrete query = true ->
  symbols knowledge = Ok sk -> symbols query = Ok sq ->
  dom a = sk ∪ sq ->
  evaluate knowledge a = Ok true -> evaluate query a = Ok false ->
  model_check pick knowledge query = Ok false.
Proof.
  intros Hck Hcq Hk Hq Ha Hka Hqa.
  destruct (model_check_returns knowledge query sk sq) as [[] Hr]; try done.
  pose proof (proj1 (model_check_entails knowledge query sk sq Hck Hcq Hk Hq) Hr a Ha Hka).
  congruence.
Qed.

End ModelCheckFacts.

(** ** Examples *)

(** Modus ponens is an entailment. *)
Example model_check_modus_ponens :
  model_check (fun _ => 0%nat)
    (And [Symbol (pystr "A"); Implication (Symbol (pystr "A")) (Symbol (pystr "B"))])
    (Symbol (pystr "B")) = Ok true.
Proof. vm_compute. reflexivity. Qed.

(** [any] stops at the first true disjunct: the base instance after it is
    not evaluated. *)
Example evaluate_any_stops :
  evaluate (Or [Symbol (pystr "A"); Base 0]) {[ pystr "A" := true ]} = Ok true.
Proof. vm_compute. reflexivity. Qed.

(** The order in which [pop] takes the symbols is visible only when some
    evaluation raises: the conjunction of the two calls of [check_all] stops
    at the first false, so one order meets the raising assignment and
    another returns false before reaching it.  An answer of true needs every
    assignment visited, in whatever order. *)
Example model_check_order_visible :
  let K := Or [Symbol (pystr "A"); Not (Symbol (pystr "A"))] in
  let Q := And [Symbol (pystr "B"); Or [Symbol (pystr "A"); Base 0]] in
  model_check (fun _ => 0%nat) K Q = Raise (Exception (pystr "nothing to evaluate")) /\
  model_check (fun _ => 1%nat) K Q = Ok false.
Proof. vm_compute. split; reflexivity. Qed.

(** ** Structural equality *)

Lemma list_eq_iff {A} (eq : A -> A -> bool) (l : list A) :
  Forall (fun x => forall y, eq x y = true <-> x = y) l ->
  forall l', list_eq eq l l' = true <-> l = l'.
Proof.
  induction 1 as [|x l Hx _ IH]; intros [|y l']; simpl; try done.
  rewrite andb_true_iff, Hx, IH. split; [by intros [-> ->] | by intros [= -> ->]].
Qed.

Lemma Sentence_eq_iff (s : Sentence) : forall t, Sentence_eq s t = true <-> s = t.
Proof.
  induction s as [id|name|o IH|cs IH|ds IH|a c IHa IHc] using Sentence_nested_ind;
    intros [id'|name'|o'|cs'|ds'|a' c']; simpl; try done.
  - rewrite N.eqb_eq. split; [by intros -> | by intros [= ->]].
  - rewrite bool_decide_eq_true. split; [by intros -> | by intros [= ->]].
  - rewrite IH. split; [by intros -> | by intros [= ->]].
  - rewrite (list_eq_iff _ _ IH). split; [by intros -> | by intros [= ->]].
  - rewrite (list_eq_iff _ _ IH). split; [by intros -> | by intros [= ->]].
  - rewrite andb_true_iff, IHa, IHc. split; [by intros [-> ->] | by intros [= -> ->]].
Qed.

(** ** Parentheses *)

Lemma balanced_from_spec (s : str) : forall count : Z,
  (0 <= count)%Z ->
  balanced_from count s = true <->
  (forall k, (0 <= count + depth (take k s))%Z) /\ (count + depth s = 0)%Z.
Proof.
  induction s as [|c rest IH]; intros count Hcount; simpl.
  - rewrite Z.eqb_eq. split.
    + intros ->. split; [intros k; by rewrite take_nil | done].
    + intros [_ H]. lia.
  - assert (forall (P : nat -> Prop), (forall k, P k) <-> P 0%nat /\ forall k, P (S k)) as Hnat.
    { intros P. split; [by auto|]. intros [H0 HS] [|k]; auto. }
    rewrite (Hnat (fun k => (0 <= count + depth (take k (c :: rest)))%Z)). simpl.
    unfold paren_step.
    destruct (c =? lparen)%N.
    + rewrite IH by lia. split.
      * intros [Hk Hd]. split; [split; [lia|]|lia]. intros k. specialize (Hk k). lia.
      * intros [[_ Hk] Hd]. split; [|lia]. intros k. specialize (Hk k). lia.
    + destruct (c =? rparen)%N.
      * destruct (count <=? 0)%Z eqn:Hle.
        -- apply Z.leb_le in Hle. split; [done|].
           intros [[_ Hk] _]. specialize (Hk 0%nat). rewrite take_0 in Hk. simpl in Hk. lia.
        -- apply Z.leb_gt in Hle. rewrite IH by lia. split.
           ++ intros [Hk Hd]. split; [split; [lia|]|lia]. intros k. specialize (Hk k). lia.
           ++ intros [[_ Hk] Hd]. split; [|lia]. intros k. specialize (Hk k). lia.
      * rewrite IH by lia. split.
        -- intros [Hk Hd]. split; [split; [lia|]|lia]. intros k. specialize (Hk k). lia.
        -- intros [[_ Hk] Hd]. split; [|lia]. intros k. specialize (Hk k). lia.
Qed.

Lemma balanced_well_nested (s : str) : balanced s = true <-> well_nested s.
Proof.
  unfold balanced, well_nested. rewrite balanced_from_spec by lia.
  split; intros [Hk Hd]; (split; [intros k; specialize (Hk k); lia | lia]).
Qed.

Lemma outer_parenthesized_spec (s : str) :
  outer_parenthesized s = true <->
  exists t, s = [lparen] ++ t ++ [rparen] /\ well_nested t.
Proof.
  setoid_rewrite <- balanced_well_nested. unfold outer_parenthesized, interior.
  destruct s as [|c r]; [split; [done | by intros (t & ? & _)]|].
  rewrite !andb_true_iff, !N.eqb_eq. cbn [tl]. split.
  - intros [[-> Hlast] Hbal]. destruct r as [|c' r'] using rev_ind; [done|].
    clear IHr'. exists r'.
    rewrite app_comm_cons, last_last in Hlast. subst c'.
    rewrite removelast_last in Hbal. done.
  - intros (t & [= -> ->] & Hbal).
    rewrite app_comm_cons, last_last, removelast_last. done.
Qed.

Lemma wrapped_differs (s : str) : [lparen] ++ s ++ [rparen] <> s.
Proof.
  intros H. apply (f_equal length) in H. rewrite !length_app in H. simpl in H. lia.
Qed.

Section RenderingFacts.

Variable unicode_alpha : N -> bool.

Lemma parenthesize_unchanged (s : str) :
  parenthesize unicode_alpha s = s <->
  s = [] \/ isalpha unicode_alpha s = true \/
  exists t, s = [lparen] ++ t ++ [rparen] /\ well_nested t.
Proof.
  rewrite <- outer_parenthesized_spec. unfold parenthesize.
  destruct s as [|c r]; [by split; auto|].
  cbn [length Nat.eqb orb].
  destruct (isalpha unicode_alpha (c :: r)); [by split; auto|].
  destruct (outer_parenthesized (c :: r)); [by split; auto|].
  cbn [orb]. split.
  - by intros H%wrapped_differs.
  - by intros [?|[?|?]].
Qed.

Lemma parenthesize_wraps (s : str) :
  s <> [] -> isalpha unicode_alpha s = false -> outer_parenthesized s = false ->
  parenthesize unicode_alpha s = [lparen] ++ s ++ [rparen].
Proof.
  intros Hne Halpha Houter. unfold parenthesize. rewrite Halpha, Houter.
  by destruct s.
Qed.

End RenderingFacts.

(** ** C1 *)

(** C1, at the failing input. The empty conjunction evaluates to true under
    every model, so every sentence entails it; yet [model_check] of any
    knowledge against it raises, whatever the order in which symbols are
    taken, because [symbols] of the empty conjunction raises.  For the
    knowledge [Symbol("A")] the exception is the type error of [set.union]. *)
Theorem model_check_raises_on_empty_conjunction :
  forall (pick : gset str -> nat) (knowledge : Sentence),
    (forall model, evaluate (And []) model = Ok true) /\
    raises (model_check pick knowledge (And [])) /\
    model_check pick (Symbol (pystr "A")) (And []) =
      Raise (TypeError (pystr "unbound method set.union() needs an argument")).
Proof.
  intros pick knowledge. split; [by intros model|]. split; [|done].
  unfold model_check. destruct (symbols knowledge) as [sk|e]; by eexists.
Qed.

(** ** C2 *)

(** C2, at the failing input. [symbols] of an [And] with no conjuncts and
    of an [Or] with no disjuncts raises the type error of a [set.union]
    call without arguments; it does not return the empty set. *)
Theorem symbols_of_empty_compound_raises :
  let needs_argument := TypeError (pystr "unbound method set.union() needs an argument") in
  symbols (And []) = Raise needs_argument /\
  symbols (Or []) = Raise needs_argument /\
  symbols (And []) <> Ok ∅ /\
  symbols (Or []) <> Ok ∅.
Proof. simpl. by repeat split. Qed.

(** The failure is that of the empty operand list alone: a compound with
    operands returns the union of their symbols. *)
Lemma symbols_of_compound (c : Sentence) (cs : list Sentence) (sets : list (gset str)) :
  collect symbols (c :: cs) = Ok sets ->
  symbols (And (c :: cs)) = Ok (⋃ sets) /\ symbols (Or (c :: cs)) = Ok (⋃ sets).
Proof.
  intros Hc. cbn [symbols]. rewrite Hc. cbn [bind].
  assert (set_union sets = Ok (⋃ sets)) as ->; [|done].
  apply set_union_Ok. split; [|done].
  apply collect_Ok in Hc. by inversion Hc.
Qed.

(** ** C3 *)

Lemma model_check_refutes (pick : gset str -> nat) (knowledge query : Sentence)
    (a : gmap str bool) :
  refutes knowledge query a = true -> model_check pick knowledge query = Ok false.
Proof.
  unfold refutes. rewrite !andb_true_iff. intros [[[Hck Hcq] Hs] He].
  destruct (symbols knowledge) as [sk|] eqn:Hk; [|done].
  destruct (symbols query) as [sq|] eqn:Hq; [|done].
  apply bool_decide_eq_true in Hs.
  destruct (evaluate knowledge a) as [[]|] eqn:Hka; try done.
  destruct (evaluate query a) as [[]|] eqn:Hqa; try done.
  by apply (model_check_refuted pick knowledge query sk sq a).
Qed.

(** The three rules alone entail none of the three queries: [model_check]
    returns false for WorkFromHome, for PublicTransport and for Drive,
    whatever the order in which each call takes the symbols. *)
Theorem model_check_commuting_rules :
  forall pick1 pick2 pick3 : gset str -> nat,
    model_check pick1 knowledge_base WFH = Ok false /\
    model_check pick2 knowledge_base PublicTransport = Ok false /\
    model_check pick3 knowledge_base Drive = Ok false.
Proof.
  intros pick1 pick2 pick3. repeat split.
  - apply (model_check_refutes pick1 _ _ (only_true (pystr "PublicTransport"))).
    vm_compute. reflexivity.
  - apply (model_check_refutes pick2 _ _ (only_true (pystr "Strike"))).
    vm_compute. reflexivity.
  - apply (model_check_refutes pick3 _ _ (only_true (pystr "PublicTransport"))).
    vm_compute. reflexivity.
Qed.

(** On concrete sentences the answer computed in one order of the symbols is
    the answer in every order. *)
Lemma model_check_any_order (pick : gset str -> nat) (K Q : Sentence) (r : result bool) :
  concrete K && concrete Q = true ->
  model_check (fun _ => 0%nat) K Q = r ->
  model_check pick K Q = r.
Proof.
  intros [Hck Hcq]%andb_true_iff <-.
  destruct (symbols K) as [sk|e] eqn:Hk; [|unfold model_check; by rewrite Hk].
  destruct (symbols Q) as [sq|e] eqn:Hq; [|unfold model_check; by rewrite Hk, Hq].
  destruct (model_check_returns pick K Q sk sq Hck Hcq Hk Hq) as [b1 H1].
  destruct (model_check_returns (fun _ => 0%nat) K Q sk sq Hck Hcq Hk Hq) as [b2 H2].
  pose proof (model_check_entails pick K Q sk sq Hck Hcq Hk Hq) as E1.
  pose proof (model_check_entails (fun _ => 0%nat) K Q sk sq Hck Hcq Hk Hq) as E2.
  rewrite H1, H2 in *. f_equal. destruct b1, b2; try done.
  - by pose proof (proj2 E2 (proj1 E1 eq_refl)).
  - by pose proof (proj2 E1 (proj1 E2 eq_refl)).
Qed.

(** C3, at the failing input. [perform_model_check] does not use the
    scenario it is given: for every scenario, the first of the source
    included, its three answers are false (work from home), false (drive)
    and false (public transport).  The answers the claim states for the
    scenario in which it rains and there is no early meeting, strike or
    appointment (true for WorkFromHome, false for PublicTransport and for
    Drive) are those [model_check] gives when the facts of the scenario are
    part of the knowledge, with or without the scenario's binding of
    HeavyTraffic. *)
Theorem perform_model_check_ignores_scenario :
  forall pick : gset str -> nat,
    let stated := fun scenario =>
      model_check pick (knowledge_in scenario) WFH = Ok true /\
      model_check pick (knowledge_in scenario) PublicTransport = Ok false /\
      model_check pick (knowledge_in scenario) Drive = Ok false in
    (forall model, perform_model_check pick model = Ok (false, false, false)) /\
    perform_model_check pick scenario1 = Ok (false, false, false) /\
    stated scenario1 /\
    stated (delete (pystr "HeavyTraffic") scenario1).
Proof.
  intros pick stated.
  assert (forall model, perform_model_check pick model = Ok (false, false, false)) as Hall.
  { intros model. unfold perform_model_check, query_wfh, query_drive, query_public_transport.
    destruct (model_check_commuting_rules pick pick pick) as (-> & -> & ->). done. }
  split; [done|]. split; [apply Hall|].
  unfold stated. repeat split; apply model_check_any_order; vm_compute; reflexivity.
Qed.

(** ** C4 *)

(** C4. A symbol's [evaluate] raises exactly when its name is absent from
    the model; a bound name evaluates to the value it is bound to, and an
    unbound name never evaluates to false. *)
Theorem Symbol_evaluate_lookup :
  forall (name : str) (model : gmap str bool),
    (raises (evaluate (Symbol name) model) <-> model !! name = None) /\
    (forall b, model !! name = Some b -> evaluate (Symbol name) model = Ok b) /\
    (model !! name = None -> evaluate (Symbol name) model <> Ok false).
Proof.
  intros name model. simpl. destruct (model !! name) as [b|] eqn:E.
  - split; [|split].
    + split; [by intros [e He] | done].
    + by intros b' [= ->].
    + done.
  - split; [|split].
    + split; [done | intros _; by eexists].
    + done.
    + done.
Qed.

(** ** C5 *)

(** C5, amended. On an instance of the base class, [evaluate] raises for
    every model, while [formula] returns the empty string and [symbols]
    returns the empty set. *)
Theorem Base_methods :
  forall (unicode_alpha : N -> bool) (id : N),
    (forall model,
        call unicode_alpha (Base id) (call_evaluate model) =
          Raise (Exception (pystr "nothing to evaluate"))) /\
    call unicode_alpha (Base id) call_formula = Ok (VStr []) /\
    call unicode_alpha (Base id) call_symbols = Ok (VSet ∅).
Proof. intros unicode_alpha id. by repeat split. Qed.

(** C5 as stated fails: not every call on a base instance raises. *)
Lemma Base_formula_does_not_raise :
  ~ forall (unicode_alpha : N -> bool) (id : N) (m : method),
      raises (call unicode_alpha (Base id) m).
Proof.
  intros H. destruct (H (fun _ => false) 0%N call_formula) as [e He]. done.
Qed.

(** ** C6 *)

Lemma collect_validate_sentences (ss : list Sentence) :
  collect validate (map PySentence ss) = Ok ss.
Proof.
  induction ss as [|s ss IH]; simpl; [done|]. by rewrite IH.
Qed.

Lemma collect_validate_outcome (args : list pyobj) :
  (Forall (fun o => isinstance_Sentence o = true) args ->
   exists ss, args = map PySentence ss /\ collect validate args = Ok ss) /\
  (Exists (fun o => isinstance_Sentence o = false) args ->
   collect validate args = Raise (TypeError (pystr "must be a logical sentence"))).
Proof.
  induction args as [|o args [IHok IHbad]]; split.
  - intros _. by exists [].
  - by inversion 1.
  - inversion 1 as [|?? Ho Hargs]; subst.
    destruct (IHok Hargs) as (ss & -> & Hss).
    destruct o as [s| | | | |]; try done.
    exists (s :: ss). split; [done|]. simpl. by rewrite Hss.
  - intros Hex. destruct o as [s| | | | |]; try done. simpl.
    inversion Hex as [?? Ho|?? Hargs]; subst; [done|]. by rewrite (IHbad Hargs).
Qed.

(** C6. Each compound constructor raises the type error of [validate] when
    some operand is not a sentence, and the error is the constructor's own
    outcome; when every operand is a sentence the constructor returns the
    compound built from them. *)
Theorem constructors_validate_operands :
  let type_error := TypeError (pystr "must be a logical sentence") in
  (forall o, isinstance_Sentence o = false -> Not_init o = Raise type_error) /\
  (forall args, Exists (fun o => isinstance_Sentence o = false) args ->
     And_init args = Raise type_error) /\
  (forall args, Exists (fun o => isinstance_Sentence o = false) args ->
     Or_init args = Raise type_error) /\
  (forall a c, isinstance_Sentence a = false \/ isinstance_Sentence c = false ->
     Implication_init a c = Raise type_error) /\
  (forall s, Not_init (PySentence s) = Ok (Not s)) /\
  (forall ss, And_init (map PySentence ss) = Ok (And ss)) /\
  (forall ss, Or_init (map PySentence ss) = Ok (Or ss)) /\
  (forall a c, Implication_init (PySentence a) (PySentence c) = Ok (Implication a c)) /\
  (forall args, Forall (fun o => isinstance_Sentence o = true) args ->
     returns (And_init args) /\ returns (Or_init args)).
Proof.
  intros type_error. repeat split.
  - by intros [s| | | | |].
  - intros args H. unfold And_init. by rewrite (proj2 (collect_validate_outcome args) H).
  - intros args H. unfold Or_init. by rewrite (proj2 (collect_validate_outcome args) H).
  - intros [a| | | | |] [c| | | | |] [H|H]; done.
  - intros ss. unfold And_init. by rewrite collect_validate_sentences.
  - intros ss. unfold Or_init. by rewrite collect_validate_sentences.
  - destruct (proj1 (collect_validate_outcome args) H) as (ss & _ & Hss).
    unfold And_init. rewrite Hss. apply returns_Ok.
  - destruct (proj1 (collect_validate_outcome args) H) as (ss & _ & Hss).
    unfold Or_init. rewrite Hss. apply returns_Ok.
Qed.

(** ** C7 *)

(** C7. [__eq__] is reflexive, symmetric and transitive; [Symbol("A")]
    equals [Symbol("A")] and differs from [Symbol("B")]; sentences that are
    equal have the same [__hash__]. *)
Theorem Sentence_eq_equivalence_and_hash :
  (forall s, Sentence_eq s s = true) /\
  (forall s t, Sentence_eq s t = true -> Sentence_eq t s = true) /\
  (forall s t u, Sentence_eq s t = true -> Sentence_eq t u = true -> Sentence_eq s u = true) /\
  Sentence_eq (Symbol (pystr "A")) (Symbol (pystr "A")) = true /\
  Sentence_eq (Symbol (pystr "A")) (Symbol (pystr "B")) = false /\
  (forall (hash : hashable -> Z) s t,
      Sentence_eq s t = true -> Sentence_hash hash s = Sentence_hash hash t).
Proof.
  repeat split.
  - intros s. by apply Sentence_eq_iff.
  - intros s t ->%Sentence_eq_iff. by apply Sentence_eq_iff.
  - intros s t u ->%Sentence_eq_iff ->%Sentence_eq_iff. by apply Sentence_eq_iff.
  - by intros hash s t ->%Sentence_eq_iff.
Qed.

(** ** C8 *)

(** C8, amended. [formula] renders negation with the prefix "¬",
    conjunction, disjunction and implication with their infix tokens
    between the operands; an operand's rendering is taken through
    [parenthesize], except that of the only operand of an [And] or [Or],
    which is rendered as it is, without a connective.  [parenthesize] either
    leaves a string as it is or wraps it in one pair of parentheses, and it
    leaves it exactly when it is empty, purely alphabetic, or one pair of
    parentheses around a well-nested string.  The rendering of
    [And(Symbol("A"), Or(Symbol("B"), Symbol("C")))] parenthesizes the
    disjunction.  An [And] or [Or] without operands renders as the empty
    string. *)
Theorem formula_rendering :
  forall unicode_alpha : N -> bool,
    let render := formula unicode_alpha in
    let operand := fun s => parenthesize unicode_alpha (render s) in
    (forall o, render (Not o) = not_token ++ operand o) /\
    (forall a c, render (Implication a c) = operand a ++ implies_token ++ operand c) /\
    (forall c, render (And [c]) = render c /\ render (Or [c]) = render c) /\
    render (And []) = [] /\ render (Or []) = [] /\
    (forall c c' cs,
        render (And (c :: c' :: cs)) = operand c ++ and_token ++ join and_token (map operand (c' :: cs)) /\
        render (Or (c :: c' :: cs)) = operand c ++ or_token ++ join or_token (map operand (c' :: cs))) /\
    (forall s, parenthesize unicode_alpha s = s \/
               parenthesize unicode_alpha s = [lparen] ++ s ++ [rparen]) /\
    (forall s, parenthesize unicode_alpha s = s <->
               s = [] \/ isalpha unicode_alpha s = true \/
               exists t, s = [lparen] ++ t ++ [rparen] /\ well_nested t) /\
    render (And [Symbol (pystr "A"); Or [Symbol (pystr "B"); Symbol (pystr "C")]]) =
      pystr "A" ++ and_token ++ pystr "(B" ++ or_token ++ pystr "C)".
Proof.
  intros unicode_alpha render operand. repeat split.
  - intros s. unfold parenthesize. destruct (_ || _); auto.
  - by apply parenthesize_unchanged.
  - by apply parenthesize_unchanged.
Qed.

(** C8 as stated fails in both directions: a single symbol may be
    parenthesized (a name that is not purely alphabetic), and a
    sub-expression that is neither a single symbol nor already parenthesized
    may be left without parentheses (the empty conjunction). *)
Lemma formula_rule_as_stated_fails :
  (~ forall (unicode_alpha : N -> bool) (sub : Sentence),
       is_Symbol sub = true ->
       formula unicode_alpha (Not sub) = not_token ++ formula unicode_alpha sub) /\
  (~ forall (unicode_alpha : N -> bool) (sub : Sentence),
       is_Symbol sub = false ->
       outer_parenthesized (formula unicode_alpha sub) = false ->
       formula unicode_alpha (Not sub) =
         not_token ++ [lparen] ++ formula unicode_alpha sub ++ [rparen]).
Proof.
  split.
  - intros H. by specialize (H (fun _ => false) (Symbol (pystr "A1")) eq_refl).
  - intros H. by specialize (H (fun _ => false) (And []) eq_refl eq_refl).
Qed.

(** ** C9 *)

(** C9. If [model_check] returns true for a knowledge sentence against two
    queries, it returns true against their conjunction; the three calls may
    take the symbols in different orders. *)
Theorem model_check_conjunction :
  forall (pick1 pick2 pick : gset str -> nat) (K Q1 Q2 : Sentence),
    model_check pick1 K Q1 = Ok true ->
    model_check pick2 K Q2 = Ok true ->
    model_check pick K (And [Q1; Q2]) = Ok true.
Proof.
  intros pick1 pick2 pick K Q1 Q2 H1 H2.
  apply model_check_true in H1 as (sk & s1 & Hk & Hq1 & H1).
  apply model_check_true in H2 as (sk' & s2 & Hk' & Hq2 & H2).
  assert (sk' = sk) as -> by congruence. clear Hk'.
  apply model_check_true. exists sk, (s1 ∪ s2). split; [done|]. split.
  { cbn [symbols collect]. rewrite Hq1, Hq2. done. }
  intros a Ha.
  set (a1 := filter (fun kv => kv.1 ∈ sk ∪ s1) a).
  set (a2 := filter (fun kv => kv.1 ∈ sk ∪ s2) a).
  assert (dom a1 = sk ∪ s1) as Ha1.
  { unfold a1. apply set_eq. intros n.
    rewrite elem_of_dom. unfold is_Some. setoid_rewrite map_lookup_filter_Some.
    split; [by intros (b & _ & ?)|]. intros Hn.
    assert (n ∈ dom a) as [b Hb]%elem_of_dom by (rewrite Ha; set_solver).
    by exists b. }
  assert (dom a2 = sk ∪ s2) as Ha2.
  { unfold a2. apply set_eq. intros n.
    rewrite elem_of_dom. unfold is_Some. setoid_rewrite map_lookup_filter_Some.
    split; [by intros (b & _ & ?)|]. intros Hn.
    assert (n ∈ dom a) as [b Hb]%elem_of_dom by (rewrite Ha; set_solver).
    by exists b. }
  assert (forall n, n ∈ sk ∪ s1 -> a1 !! n = a !! n) as Hag1.
  { intros n Hn. unfold a1. apply option_eq. intros b.
    rewrite map_lookup_filter_Some. naive_solver. }
  assert (forall n, n ∈ sk ∪ s2 -> a2 !! n = a !! n) as Hag2.
  { intros n Hn. unfold a2. apply option_eq. intros b.
    rewrite map_lookup_filter_Some. naive_solver. }
  specialize (H1 a1 Ha1). specialize (H2 a2 Ha2). unfold leaf in *.
  rewrite (evaluate_agree K sk a1 a) in H1 by (try done; intros; apply Hag1; set_solver).
  rewrite (evaluate_agree Q1 s1 a1 a) in H1 by (try done; intros; apply Hag1; set_solver).
  rewrite (evaluate_agree K sk a2 a) in H2 by (try done; intros; apply Hag2; set_solver).
  rewrite (evaluate_agree Q2 s2 a2 a) in H2 by (try done; intros; apply Hag2; set_solver).
  destruct (evaluate K a) as [[]|e]; simpl in *; try done.
  by rewrite H1, H2.
Qed.

Lemma model_check_conjunction_witness :
  model_check (fun _ => 0%nat)
    (And [Symbol (pystr "A"); Symbol (pystr "B")])
    (And [Symbol (pystr "A"); Symbol (pystr "B")]) = Ok true.
Proof.
  apply (model_check_conjunction (fun _ => 0%nat) (fun _ => 1%nat) (fun _ => 0%nat)
           (And [Symbol (pystr "A"); Symbol (pystr "B")])
           (Symbol (pystr "A")) (Symbol (pystr "B")));
    vm_compute; reflexivity.
Defined.

(** ** C10 *)

(** C10, amended. A symbol whose name is non-empty, not purely alphabetic
    and not itself one pair of parentheses around a balanced string is
    rendered with its name wrapped in parentheses wherever a compound takes
    an operand's rendering through [parenthesize]: under [Not], on either
    side of [Implication], and among the operands of an [And] or [Or] that
    has not exactly one operand.  As the only operand of an [And] or [Or]
    the name is rendered unwrapped. *)
Theorem formula_wraps_non_alphabetic_symbol :
  forall (unicode_alpha : N -> bool) (name : str),
    name <> [] ->
    isalpha unicode_alpha name = false ->
    outer_parenthesized name = false ->
    let render := formula unicode_alpha in
    let operand := fun s => parenthesize unicode_alpha (render s) in
    let wrapped := [lparen] ++ name ++ [rparen] in
    operand (Symbol name) = wrapped /\
    render (Not (Symbol name)) = not_token ++ wrapped /\
    (forall other,
        render (Implication (Symbol name) other) = wrapped ++ implies_token ++ operand other /\
        render (Implication other (Symbol name)) = operand other ++ implies_token ++ wrapped) /\
    (forall cs, length cs <> 1%nat ->
        render (And cs) = join and_token (map operand cs) /\
        render (Or cs) = join or_token (map operand cs)) /\
    render (And [Symbol name]) = name /\
    render (Or [Symbol name]) = name.
Proof.
  intros unicode_alpha name Hne Halpha Houter render operand wrapped.
  pose proof (parenthesize_wraps unicode_alpha name Hne Halpha Houter) as Hop.
  subst render operand wrapped. cbn beta.
  split; [done|]. split; [|split; [|split; [|done]]].
  - cbn [formula]. by rewrite Hop.
  - intros other. cbn [formula]. by rewrite Hop.
  - intros [|c [|c' cs]] Hlen; by simpl in *.
Qed.

Lemma formula_wraps_non_alphabetic_symbol_witness :
  formula (fun _ => false) (Not (Symbol (pystr "A1"))) = not_token ++ pystr "(A1)".
Proof.
  apply (formula_wraps_non_alphabetic_symbol (fun _ => false) (pystr "A1"));
    [by vm_compute | vm_compute; reflexivity | vm_compute; reflexivity].
Defined.

(** C10 as stated fails: a name that is not purely alphabetic but already
    in parentheses is not wrapped under [Not], and no name is wrapped as the
    only operand of an [And]. *)
Lemma formula_wrap_as_stated_fails :
  (~ forall (unicode_alpha : N -> bool) (name : str),
       name <> [] -> isalpha unicode_alpha name = false ->
       formula unicode_alpha (Not (Symbol name)) = not_token ++ [lparen] ++ name ++ [rparen]) /\
  (~ forall (unicode_alpha : N -> bool) (name : str),
       name <> [] -> isalpha unicode_alpha name = false ->
       formula unicode_alpha (And [Symbol name]) = [lparen] ++ name ++ [rparen]).
Proof.
  split.
  - intros H.
    by specialize (H (fun _ => false) (pystr "(A1)") ltac:(done) eq_refl).
  - intros H.
    by specialize (H (fun _ => false) (pystr "A1") ltac:(done) eq_refl).
Qed.

(** * Further properties of the code *)

(** ** What [symbols] returns, and when *)

Lemma collect_uniform {A B} (f : A -> result B) (ok : A -> bool) (val : A -> B)
    (e : exn) (l : list A) :
  Forall (fun x => f x = if ok x then Ok (val x) else Raise e) l ->
  collect f l = if forallb ok l then Ok (map val l) else Raise e.
Proof.
  induction 1 as [|x l Hx _ IH]; simpl; [done|].
  rewrite Hx, IH. destruct (ok x); simpl; [|done]. by destruct (forallb ok l).
Qed.

Lemma symbols_names (s : Sentence) :
  symbols s = if operands_nonempty s then Ok (names s) else Raise needs_argument.
Proof.
  induction s as [id|name|o IH|cs IH|ds IH|a c IHa IHc] using Sentence_nested_ind;
    simpl; try done.
  - rewrite (collect_uniform _ _ _ _ _ IH).
    destruct cs as [|c cs]; [done|]. rewrite bool_decide_eq_false_2 by done.
    cbn [negb andb]. destruct (forallb operands_nonempty (c :: cs)); [|done].
    cbn [bind map set_union]. by rewrite fold_left_union.
  - rewrite (collect_uniform _ _ _ _ _ IH).
    destruct ds as [|d ds]; [done|]. rewrite bool_decide_eq_false_2 by done.
    cbn [negb andb]. destruct (forallb operands_nonempty (d :: ds)); [|done].
    cbn [bind map set_union]. by rewrite fold_left_union.
  - rewrite IHa, IHc. destruct (operands_nonempty a), (operands_nonempty c); done.
Qed.

(** X1. [symbols] returns exactly when every [And] and [Or] in the sentence
    has at least one operand, and it then returns the set of the names of
    the sentence's [Symbol] leaves; otherwise it raises the type error of
    [set.union] called without an argument, and no other exception. *)
Theorem symbols_returns_names :
  forall s : Sentence,
    symbols s = (if operands_nonempty s then Ok (names s) else Raise needs_argument) /\
    (returns (symbols s) <-> operands_nonempty s = true) /\
    (forall e, symbols s = Raise e -> e = needs_argument).
Proof.
  intros s. rewrite symbols_names. destruct (operands_nonempty s).
  - split; [done|]. split; [split; [done | intros _; apply returns_Ok] | done].
  - split; [done|]. split; [split; [by intros [S ?] | done] | by intros e [= <-]].
Qed.

(** ** Evaluation *)

Lemma names_operand (c : Sentence) (cs : list Sentence) :
  c ∈ cs -> names c ⊆ ⋃ (map names cs).
Proof.
  induction 1 as [c cs|c c' cs _ IH]; simpl.
  - apply union_subseteq_l.
  - by apply union_subseteq_r'.
Qed.

Lemma names_operands_elem (n : str) (cs : list Sentence) :
  n ∈ ⋃ (map names cs) -> exists c, c ∈ cs /\ n ∈ names c.
Proof.
  induction cs as [|c cs IH]; simpl; [by intros ?%not_elem_of_empty|].
  intros [H|H]%elem_of_union.
  - exists c. split; [by left | done].
  - destruct (IH H) as (c' & Hc' & Hn). exists c'. split; [by right | done].
Qed.

Lemma all_of_Raise {A} (f : A -> result bool) l e :
  all_of f l = Raise e -> Exists (fun x => f x = Raise e) l.
Proof.
  induction l as [|x l IH]; simpl; [done|].
  intros [H|(b & Hb & H)]%bind_Raise; [by left|].
  destruct b; [right; by apply IH | done].
Qed.

Lemma any_of_Raise {A} (f : A -> result bool) l e :
  any_of f l = Raise e -> Exists (fun x => f x = Raise e) l.
Proof.
  induction l as [|x l IH]; simpl; [done|].
  intros [H|(b & Hb & H)]%bind_Raise; [by left|].
  destruct b; [done | right; by apply IH].
Qed.

Lemma evaluate_agree_names (s : Sentence) : forall m1 m2 : gmap str bool,
  (forall n, n ∈ names s -> m1 !! n = m2 !! n) -> evaluate s m1 = evaluate s m2.
Proof.
  induction s as [id|name|o IH|cs IH|ds IH|a c IHa IHc] using Sentence_nested_ind;
    intros m1 m2 Hag; simpl in *.
  - done.
  - rewrite (Hag name); [done | by apply elem_of_singleton].
  - by rewrite (IH m1 m2).
  - apply all_of_ext. rewrite Forall_forall in IH. apply Forall_forall.
    intros c Hin. apply (IH c Hin). intros n Hn. apply Hag.
    by apply (names_operand c cs Hin).
  - apply any_of_ext. rewrite Forall_forall in IH. apply Forall_forall.
    intros d Hin. apply (IH d Hin). intros n Hn. apply Hag.
    by apply (names_operand d ds Hin).
  - rewrite (IHa m1 m2), (IHc m1 m2); [done| |].
    + intros n Hn. apply Hag. by apply elem_of_union_r.
    + intros n Hn. apply Hag. by apply elem_of_union_l.
Qed.

Lemma evaluate_Raise_unbound (s : Sentence) : forall (m : gmap str bool) e,
  concrete s = true -> evaluate s m = Raise e ->
  exists name, name ∈ names s /\ m !! name = None /\ e = unbound name.
Proof.
  induction s as [id|name|o IH|cs IH|ds IH|a c IHa IHc] using Sentence_nested_ind;
    intros m e Hcon He; simpl in *.
  - done.
  - destruct (m !! name) as [b|] eqn:Hm; [done|]. injection He as <-.
    exists name. split; [by apply elem_of_singleton | done].
  - apply bind_Raise in He as [He|(b & _ & ?)]; [|done]. by apply (IH m e).
  - apply all_of_Raise, Exists_exists in He as (c & Hin & He).
    rewrite forallb_forall in Hcon. rewrite Forall_forall in IH.
    destruct (IH c Hin m e) as (name & Hn & Hm & ->);
      [by apply Hcon, list_elem_of_In | done |].
    exists name. split; [by apply (names_operand c cs Hin) | done].
  - apply any_of_Raise, Exists_exists in He as (d & Hin & He).
    rewrite forallb_forall in Hcon. rewrite Forall_forall in IH.
    destruct (IH d Hin m e) as (name & Hn & Hm & ->);
      [by apply Hcon, list_elem_of_In | done |].
    exists name. split; [by apply (names_operand d ds Hin) | done].
  - apply andb_true_iff in Hcon as [Hcona Hconc].
    apply bind_Raise in He as [He|(x & _ & He)].
    + destruct (IHa m e Hcona He) as (name & Hn & Hm & ->).
      exists name. split; [by apply elem_of_union_l | done].
    + destruct (negb x); [done|].
      destruct (IHc m e Hconc He) as (name & Hn & Hm & ->).
      exists name. split; [by apply elem_of_union_r | done].
Qed.

(** X2. [evaluate] on a sentence of the five concrete variants raises only
    for an unbound symbol of the sentence, with the exception that names it;
    so it returns a truth value whenever the model binds every symbol of the
    sentence. *)
Theorem evaluate_raises_only_unbound :
  forall (s : Sentence) (m : gmap str bool),
    concrete s = true ->
    (forall e, evaluate s m = Raise e ->
       exists name, name ∈ names s /\ m !! name = None /\ e = unbound name) /\
    (names s ⊆ dom m -> returns (evaluate s m)).
Proof.
  intros s m Hcon. split; [intros e; by apply evaluate_Raise_unbound|].
  intros Hdom. destruct (evaluate s m) as [b|e] eqn:He; [apply returns_Ok|].
  destruct (evaluate_Raise_unbound s m e Hcon He) as (name & Hn & Hm & _).
  apply Hdom, elem_of_dom in Hn as [b Hb]. congruence.
Qed.

Lemma evaluate_raises_only_unbound_witness :
  returns (evaluate (Implication (Symbol (pystr "A")) (Not (Symbol (pystr "B"))))
             (<[pystr "A" := true]> (<[pystr "B" := false]> ∅))).
Proof.
  apply (evaluate_raises_only_unbound
           (Implication (Symbol (pystr "A")) (Not (Symbol (pystr "B"))))
           (<[pystr "A" := true]> (<[pystr "B" := false]> ∅)));
    [reflexivity | by vm_compute].
Defined.

(** X3. [evaluate] reads the model only at the symbols of the sentence: two
    models that agree there give the same outcome, raised exceptions
    included, whatever else they bind. *)
Theorem evaluate_reads_own_symbols :
  forall (s : Sentence) (m1 m2 : gmap str bool),
    (forall n, n ∈ names s -> m1 !! n = m2 !! n) ->
    evaluate s m1 = evaluate s m2.
Proof. intros s m1 m2. apply evaluate_agree_names. Qed.

Lemma evaluate_reads_own_symbols_witness :
  evaluate (Not (Symbol (pystr "A"))) (<[pystr "A" := false]> ∅) =
  evaluate (Not (Symbol (pystr "A")))
    (<[pystr "HeavyTraffic" := true]> (<[pystr "A" := false]> ∅)).
Proof.
  apply (evaluate_reads_own_symbols (Not (Symbol (pystr "A")))).
  cbn [names]. intros n ->%elem_of_singleton. by vm_compute.
Defined.

(** ** Laws of the connectives, as outcomes of [evaluate] *)

(** X4. De Morgan's laws hold for [evaluate] as equalities of outcomes, for
    any number of operands and with raised exceptions included: negating a
    conjunction is the disjunction of the negations, and negating a
    disjunction is the conjunction of the negations. *)
Theorem evaluate_de_morgan :
  forall (cs : list Sentence) (m : gmap str bool),
    evaluate (Not (And cs)) m = evaluate (Or (map Not cs)) m /\
    evaluate (Not (Or cs)) m = evaluate (And (map Not cs)) m.
Proof.
  intros cs m. split.
  - induction cs as [|c cs IH]; [done|]. simpl in *.
    destruct (evaluate c m) as [[]|e]; simpl; done.
  - induction cs as [|c cs IH]; [done|]. simpl in *.
    destruct (evaluate c m) as [[]|e]; simpl; done.
Qed.

(** X5. An implication evaluates as the disjunction of the negated
    antecedent and the consequent, and a double negation as the sentence
    itself, raised exceptions included; in particular the consequent is not
    evaluated when the antecedent is false. *)
Theorem evaluate_implication_as_disjunction :
  forall (a c : Sentence) (m : gmap str bool),
    evaluate (Implication a c) m = evaluate (Or [Not a; c]) m /\
    evaluate (Not (Not a)) m = evaluate a m /\
    (evaluate a m = Ok false -> evaluate (Implication a c) m = Ok true).
Proof.
  intros a c m. simpl. destruct (evaluate a m) as [[]|e]; simpl.
  - split; [|done]. by destruct (evaluate c m) as [[]|e].
  - done.
  - done.
Qed.

(** *** Where [all] and [any] stop *)

Lemma all_of_stops {A} (f : A -> result bool) (pre : list A) (x : A) (post : list A) :
  Forall (fun y => f y = Ok true) pre ->
  all_of f (pre ++ x :: post) = let* b := f x in if b : bool then all_of f post else Ok false.
Proof.
  induction 1 as [|y pre Hy _ IH]; simpl; [done|]. by rewrite Hy.
Qed.

Lemma any_of_stops {A} (f : A -> result bool) (pre : list A) (x : A) (post : list A) :
  Forall (fun y => f y = Ok false) pre ->
  any_of f (pre ++ x :: post) = let* b := f x in if b : bool then Ok true else any_of f post.
Proof.
  induction 1 as [|y pre Hy _ IH]; simpl; [done|]. by rewrite Hy.
Qed.

Lemma all_of_first {A} (f : A -> result bool) (l : list A) :
  Forall (fun y => f y = Ok true) l \/
  exists pre x post, l = pre ++ x :: post /\
    Forall (fun y => f y = Ok true) pre /\ f x <> Ok true.
Proof.
  induction l as [|x l [IH|(pre & y & post & -> & Hpre & Hy)]].
  - by left.
  - destruct (f x) as [[]|e] eqn:Hx.
    + left. by constructor.
    + right. exists [], x, l. rewrite Hx. by repeat split.
    + right. exists [], x, l. rewrite Hx. by repeat split.
  - destruct (f x) as [[]|e] eqn:Hx.
    + right. exists (x :: pre), y, post. by repeat split; [constructor|].
    + right. exists [], x, (pre ++ y :: post). rewrite Hx. by repeat split.
    + right. exists [], x, (pre ++ y :: post). rewrite Hx. by repeat split.
Qed.

Lemma any_of_first {A} (f : A -> result bool) (l : list A) :
  Forall (fun y => f y = Ok false) l \/
  exists pre x post, l = pre ++ x :: post /\
    Forall (fun y => f y = Ok false) pre /\ f x <> Ok false.
Proof.
  induction l as [|x l [IH|(pre & y & post & -> & Hpre & Hy)]].
  - by left.
  - destruct (f x) as [[]|e] eqn:Hx.
    + right. exists [], x, l. rewrite Hx. by repeat split.
    + left. by constructor.
    + right. exists [], x, l. rewrite Hx. by repeat split.
  - destruct (f x) as [[]|e] eqn:Hx.
    + right. exists [], x, (pre ++ y :: post). rewrite Hx. by repeat split.
    + right. exists (x :: pre), y, post. by repeat split; [constructor|].
    + right. exists [], x, (pre ++ y :: post). rewrite Hx. by repeat split.
Qed.

Lemma any_of_false {A} (f : A -> result bool) l :
  any_of f l = Ok false <-> Forall (fun x => f x = Ok false) l.
Proof.
  induction l as [|x l IH]; simpl.
  - split; [constructor | done].
  - rewrite bind_Ok. split.
    + intros ([] & Hx & H); [done|]. constructor; [done | by apply IH].
    + inversion 1 as [|?? Hx Hl]; subst. exists false. split; [done | by apply IH].
Qed.

(** X6. A conjunction evaluates its conjuncts from the left and stops at
    the first that is not true: it returns true exactly when every conjunct
    does, and otherwise its outcome is decided by the first conjunct that
    does not return true (false if that one returns false, its exception if
    it raises), the later conjuncts not being evaluated.  Dually for a
    disjunction and the first disjunct that is not false. *)
Theorem evaluate_stops_at_first :
  forall (m : gmap str bool) (pre : list Sentence) (x : Sentence) (post : list Sentence),
    (forall cs, evaluate (And cs) m = Ok true <->
                Forall (fun c => evaluate c m = Ok true) cs) /\
    (forall ds, evaluate (Or ds) m = Ok false <->
                Forall (fun d => evaluate d m = Ok false) ds) /\
    (Forall (fun c => evaluate c m = Ok true) pre ->
     evaluate x m <> Ok true ->
     evaluate (And (pre ++ x :: post)) m =
       match evaluate x m with Ok _ => Ok false | Raise e => Raise e end) /\
    (Forall (fun d => evaluate d m = Ok false) pre ->
     evaluate x m <> Ok false ->
     evaluate (Or (pre ++ x :: post)) m =
       match evaluate x m with Ok _ => Ok true | Raise e => Raise e end) /\
    (forall cs, evaluate (And cs) m <> Ok true ->
       exists pre' x' post', cs = pre' ++ x' :: post' /\
         Forall (fun c => evaluate c m = Ok true) pre' /\ evaluate x' m <> Ok true) /\
    (forall ds, evaluate (Or ds) m <> Ok false ->
       exists pre' x' post', ds = pre' ++ x' :: post' /\
         Forall (fun d => evaluate d m = Ok false) pre' /\ evaluate x' m <> Ok false).
Proof.
  intros m pre x post. repeat split.
  - by intros ?%all_of_true.
  - intros H. simpl. by apply all_of_true.
  - by intros ?%any_of_false.
  - intros H. simpl. by apply any_of_false.
  - intros Hpre Hx. simpl. rewrite all_of_stops by done.
    by destruct (evaluate x m) as [[]|e].
  - intros Hpre Hx. simpl. rewrite any_of_stops by done.
    by destruct (evaluate x m) as [[]|e].
  - intros cs Hcs.
    destruct (all_of_first (fun c => evaluate c m) cs) as [Hall|H]; [|done].
    destruct Hcs. simpl. by apply all_of_true.
  - intros ds Hds.
    destruct (any_of_first (fun d => evaluate d m) ds) as [Hall|H]; [|done].
    destruct Hds. simpl. by apply any_of_false.
Qed.

(** X7. Where every conjunct returns a truth value, the order of the
    conjuncts does not change what a conjunction evaluates to, and likewise
    for a disjunction; [__eq__] nevertheless tells the orders apart. *)
Theorem evaluate_permutation :
  forall (m : gmap str bool) (cs cs' : list Sentence),
    Forall (fun c => returns (evaluate c m)) cs ->
    cs ≡ₚ cs' ->
    evaluate (And cs) m = evaluate (And cs') m /\
    evaluate (Or cs) m = evaluate (Or cs') m.
Proof.
  intros m cs cs' Hret Hperm. simpl.
  induction Hperm as [|x l l' Hperm IH|x y l|l l' l'' H1 IH1 H2 IH2].
  - done.
  - apply Forall_cons in Hret as [[b Hx] Hl]. simpl. rewrite Hx. simpl.
    destruct (IH Hl) as [-> ->]. done.
  - apply Forall_cons in Hret as [[by' Hy] Hl].
    apply Forall_cons in Hl as [[bx Hx] Hl].
    simpl. rewrite Hx, Hy. simpl. by destruct bx, by'.
  - destruct (IH1 Hret) as [-> ->]. apply IH2. by rewrite <- H1.
Qed.

Lemma evaluate_permutation_witness :
  evaluate (And [Symbol (pystr "A"); Symbol (pystr "B")])
    (<[pystr "A" := true]> (<[pystr "B" := false]> ∅)) =
  evaluate (And [Symbol (pystr "B"); Symbol (pystr "A")])
    (<[pystr "A" := true]> (<[pystr "B" := false]> ∅)).
Proof.
  apply (evaluate_permutation (<[pystr "A" := true]> (<[pystr "B" := false]> ∅))
           [Symbol (pystr "A"); Symbol (pystr "B")]
           [Symbol (pystr "B"); Symbol (pystr "A")]).
  - repeat constructor; by vm_compute; eexists.
  - apply perm_swap.
Defined.

(** X8. An [And] or [Or] with exactly one operand behaves as that operand:
    it evaluates to the same outcome under every model, renders to the same
    string and has the same symbols. *)
Theorem single_operand_compound :
  forall (unicode_alpha : N -> bool) (c : Sentence) (m : gmap str bool),
    evaluate (And [c]) m = evaluate c m /\
    evaluate (Or [c]) m = evaluate c m /\
    formula unicode_alpha (And [c]) = formula unicode_alpha c /\
    formula unicode_alpha (Or [c]) = formula unicode_alpha c /\
    symbols (And [c]) = symbols c /\
    symbols (Or [c]) = symbols c.
Proof.
  intros unicode_alpha c m. simpl.
  destruct (evaluate c m) as [[]|e], (symbols c) as [S|e']; done.
Qed.

(** ** More on [check_all] and [model_check] *)

(** A model cut down to the names of a set. *)
Lemma restrict_dom (S : gset str) (m : gmap str bool) :
  S ⊆ dom m -> dom (filter (fun kv => kv.1 ∈ S) m) = S.
Proof.
  intros Hsub. apply set_eq. intros n.
  rewrite elem_of_dom. unfold is_Some. setoid_rewrite map_lookup_filter_Some.
  split; [by intros (b & _ & ?)|]. intros Hn.
  assert (n ∈ dom m) as [b Hb]%elem_of_dom by by apply Hsub.
  by exists b.
Qed.

Lemma restrict_lookup (S : gset str) (m : gmap str bool) (n : str) :
  n ∈ S -> filter (fun kv => kv.1 ∈ S) m !! n = m !! n.
Proof.
  intros Hn. apply option_eq. intros b. rewrite map_lookup_filter_Some. naive_solver.
Qed.

Lemma leaf_agree (K Q : Sentence) (m1 m2 : gmap str bool) :
  (forall n, n ∈ names K ∪ names Q -> m1 !! n = m2 !! n) ->
  leaf K Q m1 = leaf K Q m2.
Proof.
  intros Hag. unfold leaf.
  rewrite (evaluate_agree_names K m1 m2), (evaluate_agree_names Q m1 m2); [done| |].
  - intros n Hn. apply Hag. by apply elem_of_union_r.
  - intros n Hn. apply Hag. by apply elem_of_union_l.
Qed.

Lemma symbols_Ok_names (s : Sentence) (S : gset str) :
  symbols s = Ok S -> S = names s /\ operands_nonempty s = true.
Proof.
  rewrite symbols_names. destruct (operands_nonempty s); [|done]. by intros [= <-].
Qed.

Lemma model_check_true_any_model (pick : gset str -> nat) (K Q : Sentence)
    (m : gmap str bool) :
  model_check pick K Q = Ok true -> names K ∪ names Q ⊆ dom m ->
  leaf K Q m = Ok true.
Proof.
  intros (sk & sq & [-> _]%symbols_Ok_names & [-> _]%symbols_Ok_names & H)%model_check_true Hdom.
  rewrite <- (H (filter (fun kv => kv.1 ∈ names K ∪ names Q) m)) by by apply restrict_dom.
  apply leaf_agree. intros n Hn. symmetry. by apply restrict_lookup.
Qed.

Section CheckAllOutcomes.

Variable pick : gset str -> nat.
Variables knowledge query : Sentence.

(** An outcome of [check_all] other than true is the outcome at some
    complete assignment. *)
Lemma check_all_not_true syms model r :
  check_all pick knowledge query syms model = r -> r <> Ok true ->
  exists a : gmap str bool, dom a = syms /\ leaf knowledge query (a ∪ model) = r.
Proof.
  revert r. funelim (check_all pick knowledge query syms model); intros r Hr Hnt.
  - subst syms. exists ∅. split; [apply dom_empty_L|]. by rewrite (left_id_L ∅ (∪)).
  - clear H1 Heq Heqcall. apply pop_Some in Hpop as [Hp ->].
    assert (forall (b : bool) (a : gmap str bool),
               dom a = syms ∖ {[ p ]} ->
               leaf knowledge query (a ∪ <[p := b]> model) = r ->
               exists a' : gmap str bool,
                 dom a' = syms /\ leaf knowledge query (a' ∪ model) = r) as Hext.
    { intros b a Ha Hl.
      assert (a !! p = None) as Hfresh.
      { apply not_elem_of_dom. rewrite Ha. set_solver. }
      exists (<[p := b]> a). split; [|by rewrite <- union_insert_fresh].
      rewrite dom_insert_L, Ha. apply set_eq. intros x.
      rewrite elem_of_union, elem_of_difference, elem_of_singleton.
      destruct (decide (x = p)) as [->|]; naive_solver. }
    destruct (check_all pick knowledge query (syms ∖ {[ p ]}) (<[p := true]> model))
      as [[]|e] eqn:Ht; simpl in Hr.
    + destruct (H0 true r Hr Hnt) as (a & Ha & Hl). by apply (Hext false a).
    + subst r. destruct (H (Ok false) eq_refl Hnt) as (a & Ha & Hl). by apply (Hext true a).
    + subst r. destruct (H (Raise e) eq_refl Hnt) as (a & Ha & Hl). by apply (Hext true a).
  - exfalso. by apply n, (pop_None pick).
Qed.

End CheckAllOutcomes.

(** X9. [check_all] on a set of symbols and a partial model returns true
    exactly when the knowledge does not hold, or the query holds, at every
    complete assignment of the symbols laid over the model (a symbol both in
    the set and in the model is reassigned); any other outcome, false or an
    exception, is the outcome at one of those assignments. *)
Theorem check_all_outcomes :
  forall (pick : gset str -> nat) (K Q : Sentence) (syms : gset str)
         (model : gmap str bool),
    (check_all pick K Q syms model = Ok true <->
     forall a : gmap str bool, dom a = syms -> leaf K Q (a ∪ model) = Ok true) /\
    (forall r, check_all pick K Q syms model = r -> r <> Ok true ->
       exists a : gmap str bool, dom a = syms /\ leaf K Q (a ∪ model) = r).
Proof.
  intros pick K Q syms model. split.
  - apply check_all_true.
  - intros r. apply check_all_not_true.
Qed.

(** X10. For sentences of the five concrete variants in which every [And]
    and [Or] has an operand, [model_check] always returns a truth value:
    true exactly when every assignment of the symbols of both that makes the
    knowledge true makes the query true, and false exactly when some such
    assignment makes the knowledge true and the query false. *)
Theorem model_check_decides_entailment :
  forall (pick : gset str -> nat) (K Q : Sentence),
    concrete K = true -> concrete Q = true ->
    operands_nonempty K = true -> operands_nonempty Q = true ->
    returns (model_check pick K Q) /\
    (model_check pick K Q = Ok true <->
     forall a : gmap str bool, dom a = names K ∪ names Q ->
       evaluate K a = Ok true -> evaluate Q a = Ok true) /\
    (model_check pick K Q = Ok false <->
     exists a : gmap str bool, dom a = names K ∪ names Q /\
       evaluate K a = Ok true /\ evaluate Q a = Ok false).
Proof.
  intros pick K Q Hck Hcq Hnk Hnq.
  assert (symbols K = Ok (names K)) as Hk by by rewrite symbols_names, Hnk.
  assert (symbols Q = Ok (names Q)) as Hq by by rewrite symbols_names, Hnq.
  split; [by apply (model_check_returns pick K Q (names K) (names Q))|].
  split; [by apply model_check_entails|]. split.
  - rewrite (model_check_unfold pick K Q (names K) (names Q)) by done.
    intros H. apply check_all_not_true in H as (a & Ha & Hl); [|done].
    rewrite (right_id_L ∅ (∪)) in Hl. exists a. split; [done|].
    unfold leaf in Hl. destruct (evaluate K a) as [[]|e]; simpl in Hl; done.
  - intros (a & Ha & Hka & Hqa).
    by apply (model_check_refuted pick K Q (names K) (names Q) a).
Qed.

Lemma model_check_decides_entailment_witness :
  returns (model_check (fun _ => 0%nat)
             (And [Symbol (pystr "A"); Implication (Symbol (pystr "A")) (Symbol (pystr "B"))])
             (Symbol (pystr "B"))).
Proof.
  apply (model_check_decides_entailment (fun _ => 0%nat)
           (And [Symbol (pystr "A"); Implication (Symbol (pystr "A")) (Symbol (pystr "B"))])
           (Symbol (pystr "B"))); reflexivity.
Defined.

(** X11. On sentences of the five concrete variants the outcome of
    [model_check] does not depend on the order in which [pop] takes the
    symbols. *)
Theorem model_check_order_independent :
  forall (pick1 pick2 : gset str -> nat) (K Q : Sentence),
    concrete K = true -> concrete Q = true ->
    model_check pick1 K Q = model_check pick2 K Q.
Proof.
  intros pick1 pick2 K Q Hck Hcq.
  destruct (symbols K) as [sk|e] eqn:Hk; [|unfold model_check; by rewrite Hk].
  destruct (symbols Q) as [sq|e] eqn:Hq; [|unfold model_check; by rewrite Hk, Hq].
  destruct (model_check_returns pick1 K Q sk sq Hck Hcq Hk Hq) as [b1 H1].
  destruct (model_check_returns pick2 K Q sk sq Hck Hcq Hk Hq) as [b2 H2].
  rewrite H1, H2. f_equal.
  pose proof (model_check_entails pick1 K Q sk sq Hck Hcq Hk Hq) as E1.
  pose proof (model_check_entails pick2 K Q sk sq Hck Hcq Hk Hq) as E2.
  rewrite H1 in E1. rewrite H2 in E2.
  destruct b1, b2; try done.
  - by pose proof (proj2 E2 (proj1 E1 eq_refl)).
  - by pose proof (proj2 E1 (proj1 E2 eq_refl)).
Qed.

Lemma model_check_order_independent_witness :
  model_check (fun _ => 0%nat) knowledge_base Drive =
  model_check (fun _ => 3%nat) knowledge_base Drive.
Proof.
  apply (model_check_order_independent (fun _ => 0%nat) (fun _ => 3%nat)
           knowledge_base Drive); reflexivity.
Defined.

(** X12. An answer of true holds in every model that binds the symbols of
    both sentences, whatever else it binds: there the knowledge evaluates
    without raising, and if it is true so is the query. *)
Theorem model_check_true_in_every_model :
  forall (pick : gset str -> nat) (K Q : Sentence) (m : gmap str bool),
    model_check pick K Q = Ok true ->
    names K ∪ names Q ⊆ dom m ->
    returns (evaluate K m) /\
    (evaluate K m = Ok true -> evaluate Q m = Ok true).
Proof.
  intros pick K Q m Hmc Hdom.
  pose proof (model_check_true_any_model pick K Q m Hmc Hdom) as Hl.
  unfold leaf in Hl. destruct (evaluate K m) as [[]|e]; simpl in Hl; try done.
  - split; [apply returns_Ok | done].
  - split; [apply returns_Ok | done].
Qed.

Lemma model_check_true_in_every_model_witness :
  returns (evaluate (Symbol (pystr "A"))
             (<[pystr "HeavyTraffic" := true]> (<[pystr "A" := true]> ∅))).
Proof.
  apply (model_check_true_in_every_model (fun _ => 0%nat)
           (Symbol (pystr "A")) (Not (Not (Symbol (pystr "A"))))
           (<[pystr "HeavyTraffic" := true]> (<[pystr "A" := true]> ∅))).
  - vm_compute. reflexivity.
  - cbn [names]. intros n Hn.
    apply elem_of_union in Hn as [Hn|Hn]; apply elem_of_singleton in Hn as ->;
      apply elem_of_dom; by vm_compute; eexists.
Defined.

Lemma evaluate_returns_names (s : Sentence) (m : gmap str bool) :
  concrete s = true -> names s ⊆ dom m -> returns (evaluate s m).
Proof.
  intros Hcon Hdom. destruct (evaluate s m) as [b|e] eqn:He; [apply returns_Ok|].
  destruct (evaluate_Raise_unbound s m e Hcon He) as (name & Hn & Hm & _).
  apply Hdom, elem_of_dom in Hn as [b Hb]. congruence.
Qed.

(** X13. Answers of true chain: if [model_check] returns true for K against
    Q and for Q against R, it returns true for K against R, in whatever
    orders the three calls take the symbols and also when the sentences
    contain instances of the base class. *)
Theorem model_check_transitive :
  forall (pick1 pick2 pick3 : gset str -> nat) (K Q R : Sentence),
    model_check pick1 K Q = Ok true ->
    model_check pick2 Q R = Ok true ->
    model_check pick3 K R = Ok true.
Proof.
  intros pick1 pick2 pick3 K Q R H1 H2.
  pose proof (proj1 (model_check_true pick1 K Q) H1) as (sk & sq & Hk & _ & _).
  pose proof (proj1 (model_check_true pick2 Q R) H2) as (sq' & sr & _ & Hr & _).
  apply model_check_true. exists sk, sr. split; [done|]. split; [done|].
  apply symbols_Ok_names in Hk as [-> _]. apply symbols_Ok_names in Hr as [-> _].
  intros a Ha.
  set (m := a ∪ gset_to_gmap false (names Q)).
  assert (dom m = names K ∪ names R ∪ names Q) as Hm.
  { unfold m. by rewrite dom_union_L, dom_gset_to_gmap, Ha. }
  assert (leaf K R a = leaf K R m) as ->.
  { apply leaf_agree. intros n Hn.
    assert (n ∈ dom a) as [b Hb]%elem_of_dom by by rewrite Ha.
    unfold m. rewrite Hb. symmetry. by apply lookup_union_Some_l. }
  assert (leaf K Q m = Ok true) as L1.
  { apply (model_check_true_any_model pick1 K Q m H1). rewrite Hm. set_solver. }
  assert (leaf Q R m = Ok true) as L2.
  { apply (model_check_true_any_model pick2 Q R m H2). rewrite Hm. set_solver. }
  unfold leaf in *.
  destruct (evaluate K m) as [[]|e]; simpl in *; try done.
  by rewrite L1 in L2.
Qed.

Lemma model_check_transitive_witness :
  model_check (fun _ => 0%nat)
    (And [Symbol (pystr "A"); Symbol (pystr "B")]) (Symbol (pystr "A")) = Ok true.
Proof.
  apply (model_check_transitive (fun _ => 0%nat) (fun _ => 1%nat) (fun _ => 0%nat)
           (And [Symbol (pystr "A"); Symbol (pystr "B")])
           (And [Symbol (pystr "B"); Symbol (pystr "A")])
           (Symbol (pystr "A"))); vm_compute; reflexivity.
Defined.

(** X14. An answer of true survives strengthening the knowledge and
    weakening the query: it still holds for the conjunction of the knowledge
    with any further sentence of the five concrete variants whose [And]s and
    [Or]s have operands, and for the disjunction of the query with any
    further sentence whose [And]s and [Or]s have operands. *)
Theorem model_check_monotone :
  forall (pick pick' : gset str -> nat) (K Q X : Sentence),
    model_check pick K Q = Ok true ->
    operands_nonempty X = true ->
    (concrete X = true -> model_check pick' (And [K; X]) Q = Ok true) /\
    model_check pick' K (Or [Q; X]) = Ok true.
Proof.
  intros pick pick' K Q X H HnX.
  pose proof (proj1 (model_check_true pick K Q) H) as (sk & sq & Hk & Hq & _).
  pose proof (symbols_Ok_names K sk Hk) as [-> HnK].
  pose proof (symbols_Ok_names Q sq Hq) as [-> HnQ].
  split.
  - intros HcX. apply model_check_true.
    exists (names (And [K; X])), (names Q). split; [|split; [done|]].
    { rewrite symbols_names. cbn [operands_nonempty forallb]. by rewrite HnK, HnX. }
    intros a Ha. cbn [names map union_list foldr] in Ha.
    assert (leaf K Q a = Ok true) as L.
    { apply (model_check_true_any_model pick K Q a H). rewrite Ha. set_solver. }
    destruct (evaluate_returns_names X a HcX) as [x Hx]; [rewrite Ha; set_solver|].
    unfold leaf in *. simpl. rewrite Hx.
    destruct (evaluate K a) as [[]|e]; simpl in *; try done. by destruct x.
  - apply model_check_true.
    exists (names K), (names (Or [Q; X])). split; [done|]. split.
    { rewrite symbols_names. cbn [operands_nonempty forallb]. by rewrite HnQ, HnX. }
    intros a Ha. cbn [names map union_list foldr] in Ha.
    assert (leaf K Q a = Ok true) as L.
    { apply (model_check_true_any_model pick K Q a H). rewrite Ha. set_solver. }
    unfold leaf in *. simpl.
    destruct (evaluate K a) as [[]|e]; simpl in *; try done. by rewrite L.
Qed.

Lemma model_check_monotone_witness :
  model_check (fun _ => 1%nat) (Symbol (pystr "A"))
    (Or [Symbol (pystr "A"); Symbol (pystr "B")]) = Ok true.
Proof.
  apply (model_check_monotone (fun _ => 0%nat) (fun _ => 1%nat)
           (Symbol (pystr "A")) (Symbol (pystr "A")) (Symbol (pystr "B")));
    vm_compute; reflexivity.
Defined.

(** X19. On sentences of the five concrete variants [model_check] raises
    exactly when some [And] or [Or] of the knowledge or of the query has no
    operand, and the exception is then the type error of [set.union] called
    without an argument; no evaluation raises, since every symbol is bound
    at every assignment visited. *)
Theorem model_check_raises_iff :
  forall (pick : gset str -> nat) (K Q : Sentence),
    concrete K = true -> concrete Q = true ->
    (raises (model_check pick K Q) <->
     operands_nonempty K = false \/ operands_nonempty Q = false) /\
    (forall e, model_check pick K Q = Raise e -> e = needs_argument).
Proof.
  intros pick K Q Hck Hcq.
  destruct (operands_nonempty K) eqn:HnK.
  - destruct (operands_nonempty Q) eqn:HnQ.
    + assert (symbols K = Ok (names K)) as Hk by by rewrite symbols_names, HnK.
      assert (symbols Q = Ok (names Q)) as Hq by by rewrite symbols_names, HnQ.
      destruct (model_check_returns pick K Q _ _ Hck Hcq Hk Hq) as [b ->].
      split; [|done]. split; [by intros [e ?] | by intros [?|?]].
    + unfold model_check. rewrite !symbols_names, HnK, HnQ. simpl.
      split; [|by intros e [= <-]]. split; [by right | intros _; by eexists].
  - unfold model_check. rewrite !symbols_names, HnK. simpl.
    split; [|by intros e [= <-]]. split; [by left | intros _; by eexists].
Qed.

Lemma model_check_raises_iff_witness :
  raises (model_check (fun _ => 0%nat) (Or []) (Symbol (pystr "A"))).
Proof.
  apply (model_check_raises_iff (fun _ => 0%nat) (Or []) (Symbol (pystr "A")));
    [reflexivity | reflexivity | by left].
Defined.

(** ** More on rendering *)

(** X15. The loop of [balanced] is right: it answers true exactly for the
    strings in which no prefix has more closing than opening parentheses and
    the whole has as many of each; other characters play no part. *)
Theorem balanced_iff_well_nested :
  forall s : str,
    (balanced s = true <-> well_nested s) /\
    (forall count : Z, (0 <= count)%Z ->
       balanced_from count s = true <->
       (forall k, (0 <= count + depth (take k s))%Z) /\ (count + depth s = 0)%Z).
Proof.
  intros s. split; [apply balanced_well_nested | apply balanced_from_spec].
Qed.

Lemma depth_app (s t : str) : depth (s ++ t) = (depth s + depth t)%Z.
Proof. induction s as [|c s IH]; simpl; lia. Qed.

Lemma well_nested_nil : well_nested [].
Proof. split; [intros k; by rewrite take_nil | done]. Qed.

Lemma well_nested_app (s t : str) :
  well_nested s -> well_nested t -> well_nested (s ++ t).
Proof.
  intros [Hs Hs0] [Ht Ht0]. split.
  - intros k. rewrite take_app, depth_app.
    specialize (Hs k). specialize (Ht (k - length s)%nat). lia.
  - rewrite depth_app. lia.
Qed.

Lemma well_nested_wrap (s : str) :
  well_nested s -> well_nested ([lparen] ++ s ++ [rparen]).
Proof.
  intros [Hs Hs0]. split.
  - intros [|k]; [done|]. cbn [app take depth].
    rewrite take_app, depth_app. specialize (Hs k).
    destruct (k - length s)%nat as [|j]; cbn [take depth]; rewrite ?take_nil;
      change (paren_step lparen) with 1%Z; change (paren_step rparen) with (-1)%Z;
      cbn [depth]; lia.
  - cbn [app depth]. rewrite depth_app. cbn [depth].
    change (paren_step lparen) with 1%Z; change (paren_step rparen) with (-1)%Z. lia.
Qed.

Lemma well_nested_parenthesize (unicode_alpha : N -> bool) (s : str) :
  well_nested s -> well_nested (parenthesize unicode_alpha s).
Proof.
  intros Hs. unfold parenthesize. destruct (_ || _); [done|]. by apply well_nested_wrap.
Qed.

Lemma well_nested_join (sep : str) (parts : list str) :
  well_nested sep -> Forall well_nested parts -> well_nested (join sep parts).
Proof.
  intros Hsep. induction 1 as [|p parts Hp Hparts IH]; [apply well_nested_nil|].
  destruct parts as [|p' parts]; [done|].
  change (well_nested (p ++ sep ++ join sep (p' :: parts))).
  by repeat apply well_nested_app.
Qed.

Lemma well_nested_tokens :
  well_nested not_token /\ well_nested and_token /\
  well_nested or_token /\ well_nested implies_token.
Proof. repeat split; by apply balanced_well_nested. Qed.

(** X16. Renderings are well nested: if the names of the symbols of a
    sentence are well nested in their parentheses (as names without
    parentheses are), so is the rendering [formula] gives, whatever the
    sentence. *)
Theorem formula_well_nested :
  forall (unicode_alpha : N -> bool) (s : Sentence),
    (forall n, n ∈ names s -> well_nested n) ->
    well_nested (formula unicode_alpha s).
Proof.
  intros unicode_alpha s.
  destruct well_nested_tokens as (Hnot & Hand & Hor & Himp).
  induction s as [id|name|o IH|cs IH|ds IH|a c IHa IHc] using Sentence_nested_ind;
    intros Hn; cbn [formula].
  - apply well_nested_nil.
  - apply Hn. cbn [names]. by apply elem_of_singleton.
  - apply well_nested_app; [done|]. by apply well_nested_parenthesize, IH.
  - assert (Forall (fun c => well_nested (formula unicode_alpha c)) cs) as Hcs.
    { rewrite Forall_forall in IH. apply Forall_forall. intros c Hin.
      apply (IH c Hin). intros n Hc. apply Hn. by apply (names_operand c cs Hin). }
    destruct cs as [|c [|c' cs]].
    + apply well_nested_nil.
    + by inversion Hcs.
    + apply well_nested_join; [done|]. apply Forall_fmap.
      eapply Forall_impl; [exact Hcs|]. intros x Hx. by apply well_nested_parenthesize.
  - assert (Forall (fun d => well_nested (formula unicode_alpha d)) ds) as Hds.
    { rewrite Forall_forall in IH. apply Forall_forall. intros d Hin.
      apply (IH d Hin). intros n Hd. apply Hn. by apply (names_operand d ds Hin). }
    destruct ds as [|d [|d' ds]].
    + apply well_nested_nil.
    + by inversion Hds.
    + apply well_nested_join; [done|]. apply Forall_fmap.
      eapply Forall_impl; [exact Hds|]. intros x Hx. by apply well_nested_parenthesize.
  - cbn [names] in Hn. repeat apply well_nested_app; try done.
    + apply well_nested_parenthesize, IHa. intros n Hin. apply Hn. by apply elem_of_union_l.
    + apply well_nested_parenthesize, IHc. intros n Hin. apply Hn. by apply elem_of_union_r.
Qed.

Lemma formula_well_nested_witness :
  well_nested (formula (fun _ => false) (Not (Symbol (pystr "A")))).
Proof.
  apply (formula_well_nested (fun _ => false) (Not (Symbol (pystr "A")))).
  cbn [names]. intros n ->%elem_of_singleton. by apply balanced_well_nested.
Defined.

(** X17. [parenthesize] does not wrap twice: applied to its own result on a
    well-nested string it changes nothing, and its result is then empty,
    purely alphabetic, or one pair of parentheses around a well-nested
    string. *)
Theorem parenthesize_idempotent :
  forall (unicode_alpha : N -> bool) (s : str),
    well_nested s ->
    parenthesize unicode_alpha (parenthesize unicode_alpha s) =
      parenthesize unicode_alpha s.
Proof.
  intros unicode_alpha s Hs. apply parenthesize_unchanged.
  destruct (parenthesize unicode_alpha s) as [|c r] eqn:Hp; [by left|].
  rewrite <- Hp. clear c r Hp. unfold parenthesize.
  destruct (_ || _) eqn:Hb.
  - apply orb_true_iff in Hb as [Hb|Hb].
    + apply orb_true_iff in Hb as [Hb|Hb].
      * left. apply Nat.eqb_eq in Hb. by destruct s.
      * by right; left.
    + right; right. by apply outer_parenthesized_spec.
  - right; right. by exists s.
Qed.

Lemma parenthesize_idempotent_witness :
  parenthesize (fun _ => false) (parenthesize (fun _ => false) (pystr "A => B")) =
  parenthesize (fun _ => false) (pystr "A => B").
Proof.
  apply (parenthesize_idempotent (fun _ => false) (pystr "A => B")).
  by apply balanced_well_nested.
Defined.

(** ** More on equality *)

Lemma And_single_differs (c : Sentence) : And [c] <> c /\ Or [c] <> c.
Proof.
  induction c as [id|name|o IH|cs IH|ds IH|a c IHa IHc] using Sentence_nested_ind;
    split; try done.
  - intros [= H]. rewrite <- H in IH. apply Forall_cons in IH as [[IH _] _].
    apply IH. by rewrite H.
  - intros [= H]. rewrite <- H in IH. apply Forall_cons in IH as [[_ IH] _].
    apply IH. by rewrite H.
Qed.

(** X18. [__eq__] answers true exactly for sentences of the same shape with
    the same names (and, for base instances, the same object), so the order
    of conjuncts matters, an [And] never equals an [Or], and a one-operand
    [And] or [Or] never equals its operand. *)
Theorem Sentence_eq_structural :
  (forall s t, Sentence_eq s t = true <-> s = t) /\
  (forall a b, Sentence_eq (And [a; b]) (And [b; a]) = true <-> a = b) /\
  (forall cs ds, Sentence_eq (And cs) (Or ds) = false) /\
  (forall c, Sentence_eq (And [c]) c = false /\ Sentence_eq (Or [c]) c = false).
Proof.
  split; [apply Sentence_eq_iff|]. split; [|split; [done|]].
  - intros a b. rewrite Sentence_eq_iff. split; [by intros [= ->] | by intros ->].
  - intros c. destruct (And_single_differs c) as [Ha Ho].
    split; apply not_true_is_false; by rewrite Sentence_eq_iff.
Qed.
